(** * Realization of account postings: a shallow embedding of
      [beancount/core/realization.py]

    The Python module builds a tree of [RealAccount] nodes out of a list of
    directives, computes the balance of each account, filters and walks the
    tree, and replays the postings of one account with a running balance.

    Nodes are mutable objects that are shared by reference, so the part of
    the module that creates and updates nodes ([RealAccount.__setitem__],
    [get], [get_or_create], [realize]) is embedded over an explicit store of
    nodes with addresses.  The part that only reads a tree or builds a fresh
    copy of it ([iter_children], [filter]) is embedded over tree values; the
    function [snapshot] reads the tree value stored at an address. *)

From Stdlib Require Import ZArith Ascii String.
From stdpp Require Import base option list sorting strings functions gmap.


(** ** Exceptions and results *)

(** The exceptions the module raises: [KeyError] and [ValueError] in
    [RealAccount.__setitem__], [AssertionError] from the [assert] of
    [iterate_with_balance]. *)
Inductive exn := KeyError | ValueError | AssertionError.

#[global] Instance exn_eq_dec : EqDecision exn.
Proof. solve_decision. Defined.

(** [isinstance(e, KeyError)]: in Python's exception hierarchy [KeyError]
    derives from [LookupError], while [ValueError] and [AssertionError]
    derive from [Exception] directly. *)
Definition is_KeyError (e : exn) : bool :=
  match e with KeyError => true | _ => false end.

Inductive result (A : Type) :=
| Ok (a : A)
| Raise (e : exn).
Arguments Ok {A} a.
Arguments Raise {A} e.

#[global] Instance result_ret : MRet result := λ A a, Ok a.
#[global] Instance result_bind : MBind result := λ A B k r,
  match r with
  | Ok a => k a
  | Raise e => Raise e
  end.

(** ** Account names: [account.sep], [str.split], [account.join] *)

Module account_names.

(** Modelled from the spec: the module [beancount.core.account] is not part
    of the sources at hand; its constant [sep] is the path-segment
    separator, a colon by default. *)
Definition sep : ascii := ":"%char.

(** [s.split(sep)]: the segments of [s] between occurrences of the
    separator; never empty, [''.split(sep) == ['']]. *)
Fixpoint split (s : string) : list string :=
  match s with
  | EmptyString => [EmptyString]
  | String c s' =>
      if Ascii.eqb c sep then EmptyString :: split s'
      else match split s' with
           | h :: t => String c h :: t
           | [] => [String c EmptyString]
           end
  end.

(** Modelled from the spec: [account.join] joins its arguments, the segments,
    with the separator. *)
Fixpoint join (components : list string) : string :=
  match components with
  | [] => EmptyString
  | [c] => c
  | c :: rest => c +:+ String sep (join rest)
  end.

(** [s.endswith(suffix)] *)
Fixpoint endswith (s suffix : string) : bool :=
  if String.eqb s suffix then true
  else match s with
       | EmptyString => false
       | String _ s' => endswith s' suffix
       end.

(** A well-formed account name: every segment is non-empty (so the name is
    non-empty as well). *)
Definition well_formed (account_name : string) : Prop :=
  Forall (λ c, c ≠ EmptyString) (split account_name).

#[global] Instance well_formed_dec a : Decision (well_formed a).
Proof. unfold well_formed. apply _. Defined.

End account_names.
Export account_names.

(** ** Inventory *)

Module inventory.

(** Modelled from the spec: the module [beancount.core.inventory] is not
    part of the sources at hand.  An amount is an exact number with a
    currency; numbers are counted in whole units of the smallest
    subdivision in use, so that their arithmetic is exact. *)
Record Amount := mkAmount { number : Z; currency : string }.

(** Modelled from the spec: a cost-lot is a currency with an optional cost,
    an optional date and an optional label; two positions are of the same
    lot when all four fields are equal. *)
Record Lot := mkLot {
  lot_currency : string;
  lot_cost : option Amount;
  lot_date : option Z;
  lot_label : option string
}.

(** Modelled from the spec: a position is a lot with a signed number of
    units. *)
Record Position := mkPosition { lot : Lot; units : Z }.

#[global] Instance Amount_eq_dec : EqDecision Amount.
Proof. solve_decision. Defined.
#[global] Instance Amount_countable : Countable Amount.
Proof.
  apply (inj_countable' (λ a, (number a, currency a))
                        (λ p, mkAmount p.1 p.2)).
  by intros [].
Defined.
#[global] Instance Lot_eq_dec : EqDecision Lot.
Proof. solve_decision. Defined.
#[global] Instance Lot_countable : Countable Lot.
Proof.
  apply (inj_countable'
           (λ l, (lot_currency l, lot_cost l, lot_date l, lot_label l))
           (λ p, mkLot p.1.1.1 p.1.1.2 p.1.2 p.2)).
  by intros [].
Defined.
#[global] Instance Position_eq_dec : EqDecision Position.
Proof. solve_decision. Defined.

(** Modelled from the spec: an inventory holds at most one position per
    lot, and positions with zero units do not count for equality; it is a
    finite map from lots to non-zero numbers of units. *)
Abbreviation Inventory := (gmap Lot Z).

(** [inventory.Inventory()] *)
Definition Inventory_new : Inventory := ∅.

Definition get_units (inv : Inventory) (l : Lot) : Z :=
  default 0%Z (inv !! l).

(** Modelled from the spec: [inv.add_position(position, True)], the call
    with [allow_negative] set, which never fails: the stored position of
    the same lot has its number replaced by the sum, a missing one is
    inserted, and a position whose number becomes zero is dropped.  The
    Python method updates [inv] in place; the updated inventory is
    returned here. *)
Definition add_position (inv : Inventory) (position : Position) : Inventory :=
  let n := (get_units inv (lot position) + units position)%Z in
  if decide (n = 0%Z) then delete (lot position) inv
  else <[lot position := n]> inv.

(** An inventory of one position without cost, as in [{-100 USD}]. *)
Definition simple_lot (cur : string) : Lot := mkLot cur None None None.
Definition simple_position (n : Z) (cur : string) : Position :=
  mkPosition (simple_lot cur) n.

End inventory.
Export inventory.

(** ** Directives and postings *)

Module data.

(** Modelled from the spec: the module [beancount.core.data] is not part of
    the sources at hand.  A directive is an object with an identity and a
    date.  [oid] stands for the identity of the object, the thing
    [operator.is_] compares; dates are days counted on the calendar. *)
Record Entry := mkEntry { oid : nat; date : Z }.

(** Modelled from the spec: a posting names an account and a position and
    refers back to the transaction that owns it.  The back-reference
    [posting.entry] is a lookup-only reference; it is kept as the identity
    and the date of the owning transaction, which is all the module reads
    through it. *)
Record Posting := mkPosting {
  p_entry : Entry;
  p_account : string;
  p_position : Position
}.

(** Modelled from the spec: the kinds of directives, with the fields the
    module reads.  [Price] and [Event] stand for the kinds that carry no
    account. *)
Inductive Directive :=
| Transaction (e : Entry) (txn_postings : list Posting)
| Open (e : Entry) (acc : string)
| Close (e : Entry) (acc : string)
| Balance (e : Entry) (acc : string)
| Note (e : Entry) (acc : string)
| Document (e : Entry) (acc : string)
| Pad (e : Entry) (acc acc_pad : string)
| Price (e : Entry)
| Event (e : Entry).

Definition entry_of (d : Directive) : Entry :=
  match d with
  | Transaction e _ | Open e _ | Close e _ | Balance e _ | Note e _
  | Document e _ | Pad e _ _ | Price e | Event e => e
  end.

(** An element of a list of postings of an account: a [Posting] or a
    directive; [isinstance(x, Posting)] tells them apart. *)
Inductive PostingOrEntry :=
| IsPosting (p : Posting)
| IsEntry (d : Directive).

#[global] Instance Entry_eq_dec : EqDecision Entry.
Proof. solve_decision. Defined.
#[global] Instance Posting_eq_dec : EqDecision Posting.
Proof. solve_decision. Defined.
#[global] Instance Directive_eq_dec : EqDecision Directive.
Proof. solve_decision. Defined.
#[global] Instance PostingOrEntry_eq_dec : EqDecision PostingOrEntry.
Proof. solve_decision. Defined.

End data.
Export data.

(** ** Python dictionaries *)

Module pydict.

(** A [dict] with string keys, as the list of its items in insertion order;
    keys are unique. *)
Abbreviation dict V := (list (string * V)).

Section pydict.
Context {V : Type}.

(** [d.get(key, None)] *)
Fixpoint dict_get (key : string) (d : dict V) : option V :=
  match d with
  | [] => None
  | (k, v) :: d' => if decide (k = key) then Some v else dict_get key d'
  end.

(** [dict.__setitem__(d, key, value)]: the value of an existing key is
    replaced where it stands, a new key is added at the end. *)
Fixpoint dict_set (key : string) (value : V) (d : dict V) : dict V :=
  match d with
  | [] => [(key, value)]
  | (k, v) :: d' =>
      if decide (k = key) then (k, value) :: d'
      else (k, v) :: dict_set key value d'
  end.

End pydict.
End pydict.
Export pydict.

(** ** The store of [RealAccount] nodes *)

Abbreviation addr := nat.

(** A [RealAccount] object: a [dict] of its children by the last component
    of their name, with the attributes [account], [postings] and [balance].
    The children are references to other nodes. *)
Record RealAccount := mkRealAccount {
  account : string;
  postings : list PostingOrEntry;
  balance : Inventory;
  children : dict addr
}.

(** The store holds the nodes created so far; a node's address is its
    index. *)
Abbreviation store := (list RealAccount).

(** The attributes [RealAccount.__init__] sets. *)
Definition RealAccount_init (account_name : string) : RealAccount :=
  mkRealAccount account_name [] Inventory_new [].

(** Reading the node a reference points to.  References of a Python
    program always point to an object; in the stores with trees considered
    below, see [labelled], every reference points to a node of the store. *)
Definition deref (h : store) (a : addr) : RealAccount :=
  default (RealAccount_init "") (h !! a).

(** [RealAccount(account_name)]: a new node and its address. *)
Definition RealAccount_new (h : store) (account_name : string) : store * addr :=
  (h ++ [RealAccount_init account_name], List.length h).

(** A value passed to [__setitem__] as key or value: a string, a
    [RealAccount] node, or something else. *)
Inductive pyobj :=
| PyStr (s : string)
| PyReal (a : addr)
| PyOther.

(** [RealAccount.__setitem__(self, key, value)] *)
Definition setitem (h : store) (self : addr) (key value : pyobj) : result store :=
  match key with
  | PyStr k =>
      if decide (k = "") then Raise KeyError
      else match value with
           | PyReal v =>
               if endswith (account (deref h v)) k then
                 let node := deref h self in
                 Ok (<[self := mkRealAccount (account node) (postings node)
                                 (balance node) (dict_set k v (children node))]> h)
               else Raise ValueError
           | _ => Raise ValueError
           end
  | _ => Raise KeyError
  end.

(** The loop of [get] over the components. [default] is [None] for Python's
    [None] (or any value that is not a node), [Some d] for a node. *)
Fixpoint get_loop (h : store) (real_account : addr) (components : list string)
    (default : option addr) : option addr :=
  match components with
  | [] => Some real_account
  | component :: rest =>
      match dict_get component (children (deref h real_account)) with
      | None => default
      | Some real_child =>
          if decide (default = Some real_child) then default
          else get_loop h real_child rest default
      end
  end.

(** [get(real_account, account_name, default)]; the account name is a
    string, so the [ValueError] of the type test is not raised. *)
Definition get (h : store) (real_account : addr) (account_name : string)
    (default : option addr) : option addr :=
  get_loop h real_account (split account_name) default.

(** The loop of [get_or_create]; [path] holds the components seen so far. *)
Fixpoint get_or_create_loop (h : store) (real_account : addr)
    (path components : list string) : result (store * addr) :=
  match components with
  | [] => Ok (h, real_account)
  | component :: rest =>
      let path := path ++ [component] in
      match dict_get component (children (deref h real_account)) with
      | Some real_child => get_or_create_loop h real_child path rest
      | None =>
          let '(h1, real_child) := RealAccount_new h (join path) in
          h2 ← setitem h1 real_account (PyStr component) (PyReal real_child);
          get_or_create_loop h2 real_child path rest
      end
  end.

(** [get_or_create(real_account, account_name)] *)
Definition get_or_create (h : store) (real_account : addr)
    (account_name : string) : result (store * addr) :=
  get_or_create_loop h real_account [] (split account_name).

(** [contains(real_account, account_name)] *)
Definition contains (h : store) (real_account : addr) (account_name : string) : bool :=
  bool_decide (is_Some (get h real_account account_name None)).

(** ** Grouping and realization *)

(** [postings_map[key].append(x)] on a [defaultdict(list)] *)
Fixpoint append_to (key : string) (x : PostingOrEntry)
    (postings_map : dict (list PostingOrEntry)) : dict (list PostingOrEntry) :=
  match postings_map with
  | [] => [(key, [x])]
  | (k, l) :: m =>
      if decide (k = key) then (k, l ++ [x]) :: m
      else (k, l) :: append_to key x m
  end.

(** [group_by_account(entries)] *)
Definition group_by_account (entries : list Directive) : dict (list PostingOrEntry) :=
  foldl (λ postings_map entry,
           match entry with
           | Transaction _ txn_postings =>
               foldl (λ postings_map posting,
                        append_to (p_account posting) (IsPosting posting) postings_map)
                     postings_map txn_postings
           | Open _ acc | Close _ acc | Balance _ acc | Note _ acc
           | Document _ acc =>
               append_to acc (IsEntry entry) postings_map
           | Pad _ acc acc_pad =>
               append_to acc_pad (IsEntry entry)
                 (append_to acc (IsEntry entry) postings_map)
           | _ => postings_map
           end)
        [] entries.

(** [compute_postings_balance(postings)] *)
Definition compute_postings_balance (l : list PostingOrEntry) : Inventory :=
  foldl (λ balance posting,
           match posting with
           | IsPosting p => add_position balance (p_position p)
           | IsEntry _ => balance
           end)
        Inventory_new l.

(** The two assignments [real_account.postings = postings] and
    [real_account.balance = ...] of [realize]. *)
Definition set_postings (h : store) (a : addr) (l : list PostingOrEntry)
    (b : Inventory) : store :=
  let node := deref h a in
  <[a := mkRealAccount (account node) l b (children node)]> h.

(** The first loop of [realize], over the items of the postings map. *)
Fixpoint realize_postings (h : store) (real_root : addr)
    (items : dict (list PostingOrEntry)) : result store :=
  match items with
  | [] => Ok h
  | (account_name, l) :: items' =>
      '(h1, real_account) ← get_or_create h real_root account_name;
      realize_postings
        (set_postings h1 real_account l (compute_postings_balance l))
        real_root items'
  end.

(** The second loop of [realize], over [min_accounts]. *)
Fixpoint realize_min_accounts (h : store) (real_root : addr)
    (min_accounts : list string) : result store :=
  match min_accounts with
  | [] => Ok h
  | account_name :: rest =>
      '(h1, _) ← get_or_create h real_root account_name;
      realize_min_accounts h1 real_root rest
  end.

(** [realize(entries, min_accounts)]: the store of the nodes of the new tree
    and the address of its root.  [min_accounts] is [None] or a list. *)
Definition realize (entries : list Directive)
    (min_accounts : option (list string)) : result (store * addr) :=
  let postings_map := group_by_account entries in
  let '(h0, real_root) := RealAccount_new [] "" in
  h1 ← realize_postings h0 real_root postings_map;
  h2 ← match min_accounts with
       | Some l => realize_min_accounts h1 real_root l
       | None => Ok h1
       end;
  Ok (h2, real_root).

(** ** Trees of nodes as values *)

(** The tree below a node, read as a value: the attributes of the node and
    the [dict] of the trees of its children. [iter_children] and [filter]
    only read the tree they are given. *)
#[warnings="-register-all"] Inductive RealTree :=
| Node (t_account : string) (t_postings : list PostingOrEntry)
       (t_balance : Inventory) (t_children : list (string * RealTree)).

Definition tree_account (t : RealTree) : string :=
  match t with Node a _ _ _ => a end.
Definition tree_postings (t : RealTree) : list PostingOrEntry :=
  match t with Node _ p _ _ => p end.
Definition tree_balance (t : RealTree) : Inventory :=
  match t with Node _ _ b _ => b end.
Definition tree_children (t : RealTree) : dict RealTree :=
  match t with Node _ _ _ c => c end.

(** The tree value stored at an address; [fuel] bounds the depth that is
    read, and [None] is returned when it does not suffice. *)
Fixpoint snapshot (fuel : nat) (h : store) (a : addr) : option RealTree :=
  match fuel with
  | O => None
  | S fuel' =>
      let node := deref h a in
      cs ← mapM (λ kc : string * addr,
                   t ← snapshot fuel' h kc.2; Some (kc.1, t))
                (children node);
      Some (Node (account node) (postings node) (balance node) cs)
  end.

(** ** Walking a tree: [iter_children] *)

Section sorted.
Context {V : Type}.

(** [sorted(d.items())] orders the items by key: keys of a [dict] are
    unique, so that the comparison of two items is decided by their keys,
    which are strings compared character by character. *)
Fixpoint sorted_insert (x : string * V) (l : list (string * V)) : list (string * V) :=
  match l with
  | [] => [x]
  | y :: l' =>
      if String.leb x.1 y.1 then x :: y :: l'
      else y :: sorted_insert x l'
  end.

Definition sorted (items : list (string * V)) : list (string * V) :=
  foldr sorted_insert [] items.

End sorted.

(** [iter_children(real_account, leaf_only)]: the nodes in the order the
    generator yields them.  The generator visits the children in sorted key
    order; here the recursive calls are made on the children as they stand
    in the [dict] and their results are put in sorted key order, which is
    the same list (lemma [iter_children_unfold]) and is a structural
    recursion. *)
Fixpoint iter_children (real_account : RealTree) (leaf_only : bool) : list RealTree :=
  match real_account with
  | Node _ _ _ items =>
      let subs :=
        sorted (map (λ kc : string * RealTree,
                       (kc.1, iter_children kc.2 leaf_only)) items) in
      if leaf_only then
        if decide (length items = 0) then [real_account]
        else concat subs.*2
      else real_account :: concat subs.*2
  end.

(** ** Filtering a tree: [filter] *)

(** [real_copy[key] = value] on the copy [filter] builds: the tests of
    [RealAccount.__setitem__] on a key that is a string and a value that is
    a node. *)
Definition tree_setitem (key : string) (value : RealTree)
    (d : dict RealTree) : result (dict RealTree) :=
  if decide (key = "") then Raise KeyError
  else if endswith (tree_account value) key then Ok (dict_set key value d)
  else Raise ValueError.

(** [filter(real_account, predicate)]: [Ok None] when the function returns
    [None]. *)
Fixpoint filter (real_account : RealTree) (predicate : RealTree → bool)
    : result (option RealTree) :=
  match real_account with
  | Node acc ps bal items =>
      real_copy ←
        (fix loop (items : list (string * RealTree)) (real_copy : dict RealTree)
           : result (dict RealTree) :=
           match items with
           | [] => Ok real_copy
           | (child_name, real_child) :: items' =>
               real_child_copy ← filter real_child predicate;
               match real_child_copy with
               | Some c =>
                   real_copy' ← tree_setitem child_name c real_copy;
                   loop items' real_copy'
               | None => loop items' real_copy
               end
           end) items [];
      if decide (0 < length real_copy) then Ok (Some (Node acc ps bal real_copy))
      else if predicate real_account then Ok (Some (Node acc ps bal real_copy))
      else Ok None
  end.

(** ** Replaying postings with a running balance: [iterate_with_balance] *)

(** Modelled from the spec: [misc_utils.index_key(sequence, value, key, cmp)]
    is not part of the sources at hand; it returns the index of the first
    element whose key compares to the value, or [None]. *)
Fixpoint index_key {A B} (sequence : list A) (value : B) (key : A → B)
    (cmp : B → B → bool) : option nat :=
  match sequence with
  | [] => None
  | x :: rest =>
      if cmp (key x) value then Some 0
      else S <$> index_key rest value key cmp
  end.

(** [operator.is_] on directives: the same object. *)
Definition is_ (a b : Entry) : bool := bool_decide (oid a = oid b).

(** A tuple [(entry, postings, change, balance)] the generator yields.  The
    entry is given by its identity and date.  [balance] is one object that
    the generator keeps updating; the tuple holds its value at the time of
    the [yield], which is what the consumer of the tuple reads. *)
Record row := mkRow {
  row_entry : Entry;
  row_postings : list Posting;
  row_change : Inventory;
  row_balance : Inventory
}.

(** Folding the positions of postings into an inventory. *)
Definition add_postings (inv : Inventory) (l : list Posting) : Inventory :=
  foldl (λ inv p, add_position inv (p_position p)) inv l.

(** Flushing the entries of one date: the tuples yielded and the balance
    afterwards. *)
Fixpoint flush (balance : Inventory) (date_entries : list (Entry * list Posting))
    : list row * Inventory :=
  match date_entries with
  | [] => ([], balance)
  | (date_entry, date_postings) :: rest =>
      let change := add_postings Inventory_new date_postings in
      let balance := add_postings balance date_postings in
      let '(rows, balance') := flush balance rest in
      (mkRow date_entry date_postings change balance :: rows, balance')
  end.

(** The local variables of the generator that live across iterations. *)
Record loop_state := mkState {
  st_balance : Inventory;
  st_prev_date : option Z;
  st_date_entries : list (Entry * list Posting)
}.

(** One iteration of the main loop: the tuples yielded and the state
    afterwards, or the exception raised. *)
Definition loop_body (st : loop_state) (posting_or_entry : PostingOrEntry)
    : list row * result loop_state :=
  let '(posting, entry) :=
    match posting_or_entry with
    | IsPosting p => (Some p, p_entry p)
    | IsEntry d => (None, entry_of d)
    end in
  let flushed :=
    if decide (Some (date entry) ≠ st_prev_date st) then
      if match st_prev_date st with
         | None => true
         | Some prev_date => bool_decide (date entry > prev_date)%Z
         end then
        let '(rows, balance) := flush (st_balance st) (st_date_entries st) in
        (rows, Ok (mkState balance (Some (date entry)) []))
      else ([], Raise AssertionError)
    else ([], Ok st) in
  match flushed with
  | (rows, Ok st) =>
      let date_entries :=
        match posting with
        | Some posting =>
            match index_key (st_date_entries st) entry fst is_ with
            | None => st_date_entries st ++ [(entry, [posting])]
            | Some index =>
                alter (λ ep : Entry * list Posting, (ep.1, ep.2 ++ [posting]))
                      index (st_date_entries st)
            end
        | None => st_date_entries st ++ [(entry, [])]
        end in
      (rows, Ok (mkState (st_balance st) (st_prev_date st) date_entries))
  | (rows, Raise e) => (rows, Raise e)
  end.

Fixpoint loop (st : loop_state) (l : list PostingOrEntry)
    : list row * result loop_state :=
  match l with
  | [] => ([], Ok st)
  | x :: rest =>
      match loop_body st x with
      | (rows, Ok st') =>
          let '(rows', r) := loop st' rest in (rows ++ rows', r)
      | (rows, Raise e) => (rows, Raise e)
      end
  end.

(** [iterate_with_balance(postings_or_entries)]: the tuples the generator
    yields, and the exception that ends it, if any.  The [assert]
    statements are taken as executed. *)
Definition iterate_with_balance (postings_or_entries : list PostingOrEntry)
    : list row * option exn :=
  match loop (mkState Inventory_new None []) postings_or_entries with
  | (rows, Ok st) =>
      (rows ++ (flush (st_balance st) (st_date_entries st)).1, None)
  | (rows, Raise e) => (rows, Some e)
  end.

(** ** All the postings under a node: [get_postings] *)

Section get_postings.
Context {K : Type}.

(** Modelled from the spec: the postings come back in a canonical order,
    by date and then by a tiebreak that keeps the order stable.  The key
    function [data.posting_sortkey] is not part of these sources; it is a
    parameter here, with the order [<] of the keys it returns. *)
Variable posting_sortkey : PostingOrEntry → K.
Variable lt : K → K → bool.

(** [list.sort(key=posting_sortkey)]: a stable sort, elements with equal
    keys keep their order. *)
Fixpoint sort_insert (x : PostingOrEntry) (l : list PostingOrEntry)
    : list PostingOrEntry :=
  match l with
  | [] => [x]
  | y :: l' =>
      if lt (posting_sortkey y) (posting_sortkey x) then y :: sort_insert x l'
      else x :: y :: l'
  end.

Definition list_sort (l : list PostingOrEntry) : list PostingOrEntry :=
  foldr sort_insert [] l.

(** [get_postings(real_account)] *)
Definition get_postings (real_account : RealTree) : list PostingOrEntry :=
  let accumulator := iter_children real_account false ≫= tree_postings in
  list_sort accumulator.

End get_postings.

(** ** Definitions used to state the properties *)

(** A node with one more item in its [dict]. *)
Definition with_child (node : RealAccount) (k : string) (c : addr) : RealAccount :=
  mkRealAccount (account node) (postings node) (balance node)
                (dict_set k c (children node)).

(** The store after [get_or_create] has created the child [c] of [ra]. *)
Definition created (h : store) (ra : addr) (path : list string) (c : string) : store :=
  let h1 := h ++ [RealAccount_init (join (path ++ [c]))] in
  <[ra := with_child (deref h1 ra) c (length h)]> h1.

(** The nodes of a store form trees whose nodes are named after their place
    when every node can be given a path, [path_of], such that the child
    under key [k] of a node with path [p] is a node of the store with path
    [p ++ [k]] and account name [join (p ++ [k])]. *)
Definition labelled (h : store) (path_of : addr → list string) : Prop :=
  ∀ b k c, dict_get k (children (deref h b)) = Some c →
    c < length h ∧ path_of c = path_of b ++ [k] ∧
    account (deref h c) = join (path_of c).

(** [root] is the root of a tree of the store. *)
Definition is_tree (h : store) (root : addr) : Prop :=
  root < length h ∧ ∃ path_of, path_of root = [] ∧ labelled h path_of.

(** No node has a child under the empty key; [__setitem__] accepts no
    empty key, so that the stores it builds are of this kind. *)
Definition no_empty_key (h : store) : Prop :=
  ∀ b, dict_get "" (children (deref h b)) = None.

(** A key that [__setitem__] accepts: a non-empty string. *)
Definition valid_key (key : pyobj) : Prop :=
  ∃ k, key = PyStr k ∧ k ≠ "".

(** A value that [__setitem__] accepts under the key [k]: a node whose
    account name ends with [k]. *)
Definition valid_value (h : store) (k : string) (value : pyobj) : Prop :=
  ∃ v, value = PyReal v ∧ endswith (account (deref h v)) k = true.

(** Grouping, in the words of the specification: what each directive
    inserts, as pairs of an account name and the element appended to the
    list of that account.  A transaction inserts each of its postings under
    the account of the posting, and not itself; an [Open], [Close],
    [Balance], [Note] or [Document] inserts itself under its account; a
    [Pad] inserts itself twice, under its account and under the account it
    pads from; other directives insert nothing. *)
Definition insertions (entry : Directive) : list (string * PostingOrEntry) :=
  match entry with
  | Transaction _ txn_postings =>
      map (λ posting, (p_account posting, IsPosting posting)) txn_postings
  | Open _ acc | Close _ acc | Balance _ acc | Note _ acc | Document _ acc =>
      [(acc, IsEntry entry)]
  | Pad _ acc acc_pad => [(acc, IsEntry entry); (acc_pad, IsEntry entry)]
  | Price _ | Event _ => []
  end.

(** The insertions made under one account name, in the order of the input
    stream. *)
Definition grouped (entries : list Directive) (account_name : string)
    : list PostingOrEntry :=
  (base.filter (λ kx : string * PostingOrEntry, kx.1 = account_name)
               (entries ≫= insertions)).*2.

(** The number of times [x] stands in the lists of a postings map. *)
Definition occurrences (x : PostingOrEntry)
    (postings_map : dict (list PostingOrEntry)) : nat :=
  length (base.filter (λ y, y = x) (concat postings_map.*2)).

(** The positions of the [Posting]s of a list, in order; the directives of
    the list have none. *)
Definition posting_positions (l : list PostingOrEntry) : list Position :=
  omap (λ x, match x with
             | IsPosting p => Some (p_position p)
             | IsEntry _ => None
             end) l.

(** The scenario of the specification: two accounts are opened, and a
    transaction moves 100 USD from checking to food. *)
Definition scenario_open_checking : Directive :=
  Open (mkEntry 1 20140101) "Assets:Checking".
Definition scenario_open_food : Directive :=
  Open (mkEntry 2 20140101) "Expenses:Food".
Definition scenario_posting_checking : Posting :=
  mkPosting (mkEntry 3 20140222) "Assets:Checking" (simple_position (-100) "USD").
Definition scenario_posting_food : Posting :=
  mkPosting (mkEntry 3 20140222) "Expenses:Food" (simple_position 100 "USD").
Definition scenario : list Directive :=
  [ scenario_open_checking; scenario_open_food;
    Transaction (mkEntry 3 20140222)
                [scenario_posting_checking; scenario_posting_food] ].

(** The tree the scenario is realized to. *)
Definition scenario_tree : RealTree :=
  Node "" [] ∅
    [ ("Assets", Node "Assets" [] ∅
         [ ("Checking",
            Node "Assets:Checking"
                 [IsEntry scenario_open_checking; IsPosting scenario_posting_checking]
                 {[ simple_lot "USD" := (-100)%Z ]} []) ]);
      ("Expenses", Node "Expenses" [] ∅
         [ ("Food",
            Node "Expenses:Food"
                 [IsEntry scenario_open_food; IsPosting scenario_posting_food]
                 {[ simple_lot "USD" := 100%Z ]} []) ]) ].

(** A node without children. *)
Definition is_leaf (t : RealTree) : Prop := tree_children t = [].

#[global] Instance is_leaf_dec t : Decision (is_leaf t).
Proof. unfold is_leaf. destruct (tree_children t); [left|right]; done. Defined.

(** The keys of a [dict] are unique: a tree read from [RealAccount]
    objects has no two children of a node under the same key. *)
#[warnings="-register-all"] Inductive unique_keys : RealTree → Prop :=
| unique_keys_node a ps b cs :
    NoDup cs.*1 →
    Forall (λ kc : string * RealTree, unique_keys kc.2) cs →
    unique_keys (Node a ps b cs).

(** Two trees with the same contents: the same attributes at the root, and
    under the same keys children with the same contents, whatever the order
    in which the children were inserted. *)
#[warnings="-register-all"] Inductive same_contents : RealTree → RealTree → Prop :=
| same_contents_node a ps b cs1 cs2 cs2' :
    cs2 ≡ₚ cs2' →
    Forall2 (λ x y : string * RealTree, x.1 = y.1 ∧ same_contents x.2 y.2)
            cs1 cs2' →
    same_contents (Node a ps b cs1) (Node a ps b cs2).

(** The order of the keys in [sorted]. *)
Definition key_le {V} (x y : string * V) : Prop := String.le x.1 y.1.

(** Every child stands under a key that [__setitem__] accepts for it: a
    non-empty key that the account name of the child ends with. *)
#[warnings="-register-all"] Inductive setitem_keys : RealTree → Prop :=
| setitem_keys_node a ps b cs :
    Forall (λ kc : string * RealTree,
              kc.1 ≠ "" ∧ endswith (tree_account kc.2) kc.1 = true ∧
              setitem_keys kc.2) cs →
    setitem_keys (Node a ps b cs).

(** The node at the end of a path of keys, if there is one. *)
Fixpoint subtree (t : RealTree) (path : list string) : option RealTree :=
  match path with
  | [] => Some t
  | k :: q => c ← dict_get k (tree_children t); subtree c q
  end.

(** Filtering, in the words of the specification: a node survives when the
    predicate holds for it or at least one of its children survives. *)
Fixpoint survives (predicate : RealTree → bool) (t : RealTree) : bool :=
  match t with
  | Node _ _ _ cs => predicate t || existsb (λ kc, survives predicate kc.2) cs
  end.

(** The loop of [filter] over the children, by itself. *)
Fixpoint filter_loop (predicate : RealTree → bool)
    (items : list (string * RealTree)) (real_copy : dict RealTree)
    : result (dict RealTree) :=
  match items with
  | [] => Ok real_copy
  | (child_name, real_child) :: items' =>
      real_child_copy ← filter real_child predicate;
      match real_child_copy with
      | Some c =>
          real_copy' ← tree_setitem child_name c real_copy;
          filter_loop predicate items' real_copy'
      | None => filter_loop predicate items' real_copy
      end
  end.

(** The children that [filter] keeps, with their copies. *)
Definition kept (predicate : RealTree → bool) (items : list (string * RealTree))
    : dict RealTree :=
  omap (λ kc : string * RealTree,
          match filter kc.2 predicate with
          | Ok (Some c) => Some (kc.1, c)
          | _ => None
          end) items.

(** The attributes of two nodes are the same. *)
Definition same_attributes (t1 t2 : RealTree) : Prop :=
  tree_account t1 = tree_account t2 ∧ tree_postings t1 = tree_postings t2 ∧
  tree_balance t1 = tree_balance t2.

(** The date [iterate_with_balance] reads off an element of its input:
    the date of the transaction of a posting, or of the directive. *)
Definition entry_date (x : PostingOrEntry) : Z :=
  match x with
  | IsPosting p => date (p_entry p)
  | IsEntry d => date (entry_of d)
  end.

(** Chronological order: the date of an element is not before the date of
    the element in front of it. *)
Definition date_le (x y : PostingOrEntry) : Prop :=
  (entry_date x ≤ entry_date y)%Z.

(** The [Posting]s of a list, in order. *)
Definition postings_of (l : list PostingOrEntry) : list Posting :=
  omap (λ x, match x with
             | IsPosting p => Some p
             | IsEntry _ => None
             end) l.

(** The postings buffered for the current date. *)
Definition pending (date_entries : list (Entry * list Posting)) : list Posting :=
  concat date_entries.*2.

(** The postings of the tuples yielded. *)
Definition yielded_postings (rows : list row) : list Posting :=
  concat (row_postings <$> rows).

(** A running balance: the balance of each tuple is the balance of the
    tuple before it, or the balance at the start, with the positions of the
    postings of the tuple added, and the change of the tuple is the sum of
    these positions alone. *)
Fixpoint running (balance : Inventory) (rows : list row) : Prop :=
  match rows with
  | [] => True
  | r :: rest =>
      row_balance r = add_postings balance (row_postings r) ∧
      row_change r = add_postings Inventory_new (row_postings r) ∧
      running (row_balance r) rest
  end.

(** The tuple [iterate_with_balance] yields for a directive that is no
    posting, when the balance is [balance]. *)
Definition directive_row (balance : Inventory) (d : Directive) : row :=
  mkRow (entry_of d) [] Inventory_new balance.

(** Chronological order of directives. *)
Definition directive_date_le (d1 d2 : Directive) : Prop :=
  (date (entry_of d1) ≤ date (entry_of d2))%Z.

(** The postings of a transaction refer back to the transaction. *)
Definition owns_postings (d : Directive) : Prop :=
  match d with
  | Transaction e txn_postings => Forall (λ p, p_entry p = e) txn_postings
  | _ => True
  end.

(** A predicate on nodes that reads the attributes of the node only, not
    its children. *)
Definition attribute_predicate (predicate : RealTree → bool) : Prop :=
  ∀ t1 t2, same_attributes t1 t2 → predicate t1 = predicate t2.

(** The nodes of a tree: the node itself and the nodes of the trees of its
    children, each node once. *)
Fixpoint tree_nodes (t : RealTree) : list RealTree :=
  match t with
  | Node _ _ _ cs => t :: concat (map (λ kc : string * RealTree, tree_nodes kc.2) cs)
  end.

(** The stores that [RealAccount] and [__setitem__] build: the keys of a
    [dict] are unique and not empty, the account name of a child ends with
    its key, and a child is a node of the store made after its parent. *)
Definition allocated (h : store) : Prop :=
  ∀ b, NoDup (children (deref h b)).*1 ∧
       ∀ k c, (k, c) ∈ children (deref h b) →
         b < c < length h ∧ k ≠ "" ∧ endswith (account (deref h c)) k = true.

(** The order of a list sorted by key: no element has a key less than the
    key of an element in front of it. *)
Definition sortkey_le {K} (posting_sortkey : PostingOrEntry → K)
    (lt : K → K → bool) (x y : PostingOrEntry) : Prop :=
  lt (posting_sortkey y) (posting_sortkey x) = false.

(** * Properties *)

(** ** Account names *)

Lemma split_not_nil s : split s ≠ [].
Proof. destruct s as [|c s]; simpl; [done|]. by repeat case_match. Qed.

Lemma join_cons c rest :
  rest ≠ [] → join (c :: rest) = c +:+ String sep (join rest).
Proof. by destruct rest. Qed.

(** Joining the components of a name gives the name back. *)
Lemma join_split s : join (split s) = s.
Proof.
  induction s as [|c s IH]; simpl; [done|].
  destruct (Ascii.eqb_spec c sep) as [->|Hc].
  - rewrite join_cons by apply split_not_nil. simpl. by rewrite IH.
  - destruct (split s) as [|h t] eqn:Hs; [by destruct (split_not_nil s)|].
    destruct t as [|h' t]; simpl in *; by rewrite <- IH.
Qed.

Lemma split_inj s1 s2 : split s1 = split s2 → s1 = s2.
Proof. intros H. by rewrite <- (join_split s1), <- (join_split s2), H. Qed.

Lemma endswith_refl s : endswith s s = true.
Proof. destruct s; cbn [endswith]; by rewrite String.eqb_refl. Qed.

Lemma endswith_app_r p s suffix :
  endswith s suffix = true → endswith (p +:+ s) suffix = true.
Proof.
  intros H. induction p as [|a p IH]; [done|].
  change (String a p +:+ s) with (String a (p +:+ s)).
  cbn [endswith]. rewrite IH. by case_match.
Qed.

(** The name [get_or_create] gives a new node ends with the key the node is
    stored under. *)
Lemma endswith_join_snoc path c : endswith (join (path ++ [c])) c = true.
Proof.
  induction path as [|x path IH]; simpl.
  - apply endswith_refl.
  - destruct (path ++ [c]) as [|y l] eqn:Hl; [by destruct path|].
    rewrite <- Hl in *. apply endswith_app_r.
    cbn [endswith]. rewrite IH. by case_match.
Qed.

(** ** The store *)

Lemma deref_lookup h a node : h !! a = Some node → deref h a = node.
Proof. unfold deref. by intros ->. Qed.

Lemma deref_app_l h l a : a < length h → deref (h ++ l) a = deref h a.
Proof. intros. unfold deref. by rewrite lookup_app_l. Qed.

Lemma deref_new h node : deref (h ++ [node]) (length h) = node.
Proof. unfold deref. by rewrite list_lookup_middle. Qed.

Lemma deref_insert_eq h a node : a < length h → deref (<[a:=node]> h) a = node.
Proof. intros. unfold deref. by rewrite list_lookup_insert_eq. Qed.

Lemma deref_insert_ne h a b node : a ≠ b → deref (<[a:=node]> h) b = deref h b.
Proof. intros. unfold deref. by rewrite list_lookup_insert_ne. Qed.

Lemma deref_dangling h a : length h ≤ a → deref h a = RealAccount_init "".
Proof. intros. unfold deref. by rewrite lookup_ge_None_2. Qed.

(** ** Dictionaries *)

Section dict_facts.
Context {V : Type}.
Implicit Types d : dict V.

Lemma dict_get_set_eq k v d : dict_get k (dict_set k v d) = Some v.
Proof.
  induction d as [|[k' v'] d IH]; simpl; repeat case_decide; simpl;
    repeat case_decide; congruence.
Qed.

Lemma dict_get_set_ne k k' v d :
  k ≠ k' → dict_get k' (dict_set k v d) = dict_get k' d.
Proof.
  intros. induction d as [|[k1 v1] d IH]; simpl; repeat case_decide; simpl;
    repeat case_decide; congruence.
Qed.

Lemma dict_get_Some_elem_of k v d : dict_get k d = Some v → (k, v) ∈ d.
Proof.
  induction d as [|[k' v'] d IH]; simpl; [done|].
  case_decide; intros; simplify_eq; [left|right; auto].
Qed.

Lemma dict_get_None k d : dict_get k d = None ↔ k ∉ d.*1.
Proof.
  induction d as [|[k' v'] d IH]; simpl.
  - split; [intros _|done]. apply not_elem_of_nil.
  - rewrite not_elem_of_cons. case_decide as Hk.
    + split; [done|]. by intros [? _].
    + rewrite IH. split; [by split|by intros [_ ?]].
Qed.

Lemma dict_get_NoDup k v d : NoDup d.*1 → (k, v) ∈ d → dict_get k d = Some v.
Proof.
  induction d as [|[k' v'] d IH]; simpl; [by intros _ ?%elem_of_nil|].
  rewrite NoDup_cons, elem_of_cons. intros [Hk Hd] [?|Hin]; simplify_eq.
  - by rewrite decide_True.
  - rewrite decide_False; [auto|]. intros ->. apply Hk.
    apply list_elem_of_fmap. by exists (k, v).
Qed.

(** Setting a key that is not in the dictionary adds the item at the end. *)
Lemma dict_set_fresh k v d : dict_get k d = None → dict_set k v d = d ++ [(k, v)].
Proof.
  induction d as [|[k' v'] d IH]; simpl; [done|].
  case_decide; [done|]. intros. by rewrite IH.
Qed.

End dict_facts.

(** ** Creating nodes: [__setitem__] and [get_or_create] *)


Lemma setitem_ok h self k v :
  k ≠ "" → endswith (account (deref h v)) k = true →
  setitem h self (PyStr k) (PyReal v)
  = Ok (<[self := with_child (deref h self) k v]> h).
Proof. intros Hk He. unfold setitem. rewrite decide_False by done. by rewrite He. Qed.


Lemma get_or_create_loop_found h ra path c rest rc :
  dict_get c (children (deref h ra)) = Some rc →
  get_or_create_loop h ra path (c :: rest)
  = get_or_create_loop h rc (path ++ [c]) rest.
Proof. intros H. cbn [get_or_create_loop]. by rewrite H. Qed.

Lemma get_or_create_loop_created h ra path c rest :
  dict_get c (children (deref h ra)) = None → c ≠ "" →
  get_or_create_loop h ra path (c :: rest)
  = get_or_create_loop (created h ra path c) (length h) (path ++ [c]) rest.
Proof.
  intros H Hc. cbn [get_or_create_loop]. rewrite H. unfold RealAccount_new.
  rewrite setitem_ok; [done|done|].
  rewrite deref_new. apply endswith_join_snoc.
Qed.

Lemma get_or_create_loop_empty_key h ra path rest :
  dict_get "" (children (deref h ra)) = None →
  get_or_create_loop h ra path ("" :: rest) = Raise KeyError.
Proof. intros H. cbn [get_or_create_loop]. by rewrite H. Qed.

Lemma get_loop_None_cons h ra c q :
  get_loop h ra (c :: q) None
  = rc ← dict_get c (children (deref h ra)); get_loop h rc q None.
Proof. simpl. destruct (dict_get _ _); [|done]. by try case_decide. Qed.

Lemma length_created h ra path c : length (created h ra path c) = S (length h).
Proof. unfold created. rewrite length_insert, length_app. simpl. lia. Qed.

(** What a node holds once a child has been created somewhere. *)
Lemma deref_created h ra path c b :
  deref (created h ra path c) b =
    if decide (b = ra ∧ ra ≤ length h) then
      with_child (if decide (ra = length h)
                  then RealAccount_init (join (path ++ [c]))
                  else deref h ra) c (length h)
    else if decide (b = length h) then RealAccount_init (join (path ++ [c]))
    else deref h b.
Proof.
  unfold created. set (N := RealAccount_init _).
  assert (length (h ++ [N]) = S (length h)) as Hlen
    by (rewrite length_app; simpl; lia).
  destruct (decide (b = ra ∧ ra ≤ length h)) as [[-> Hle]|Hne].
  - rewrite deref_insert_eq by lia. f_equal.
    destruct (decide (ra = length h)) as [Heq|?].
    + rewrite Heq. apply deref_new.
    + apply deref_app_l. lia.
  - destruct (decide (ra = b)) as [->|?].
    + rewrite list_insert_ge by lia.
      rewrite decide_False by lia.
      rewrite !deref_dangling; [done|lia..].
    + rewrite deref_insert_ne by done.
      destruct (decide (b = length h)) as [->|?]; [apply deref_new|].
      destruct (decide (b < length h)); [by apply deref_app_l|].
      rewrite !deref_dangling; [done|lia..].
Qed.

Lemma deref_created_old h ra path c b :
  b ≠ ra → b < length h → deref (created h ra path c) b = deref h b.
Proof.
  intros. rewrite deref_created.
  rewrite decide_False by (by intros [? _]). by rewrite decide_False by lia.
Qed.

Lemma deref_created_parent h ra path c :
  ra < length h →
  deref (created h ra path c) ra = with_child (deref h ra) c (length h).
Proof.
  intros. rewrite deref_created.
  rewrite decide_True by (split; [done|lia]). by rewrite decide_False by lia.
Qed.

Lemma deref_created_new h ra path c :
  ra < length h →
  deref (created h ra path c) (length h) = RealAccount_init (join (path ++ [c])).
Proof.
  intros. rewrite deref_created.
  rewrite decide_False by lia. by rewrite decide_True.
Qed.

(** Creating a child changes no posting list, no balance, no name of an
    existing node, and no item of a [dict]. *)
Lemma created_frame h ra path c :
  dict_get c (children (deref h ra)) = None →
  (∀ b k v, dict_get k (children (deref h b)) = Some v →
            dict_get k (children (deref (created h ra path c) b)) = Some v) ∧
  (∀ b, postings (deref (created h ra path c) b) = postings (deref h b)) ∧
  (∀ b, balance (deref (created h ra path c) b) = balance (deref h b)) ∧
  (∀ b, b < length h →
        account (deref (created h ra path c) b) = account (deref h b)).
Proof.
  intros Hc.
  assert (∀ b, ¬ b < length h → deref h b = RealAccount_init "") as Hdang
    by (intros; apply deref_dangling; lia).
  repeat split.
  - intros b k v Hk. rewrite deref_created.
    assert (b < length h) as Hb.
    { destruct (decide (b < length h)) as [|Hn]; [done|].
      by rewrite (Hdang _ Hn) in Hk. }
    case_decide as H1; [destruct H1 as [-> ?]|].
    + rewrite decide_False by lia. simpl.
      rewrite dict_get_set_ne; [done|]. intros ->. congruence.
    + by rewrite decide_False by lia.
  - intros b. rewrite deref_created.
    destruct (decide (b < length h)) as [|Hn];
      repeat case_decide; destruct_and?; subst; simpl; try done; try lia;
      by rewrite Hdang.
  - intros b. rewrite deref_created.
    destruct (decide (b < length h)) as [|Hn];
      repeat case_decide; destruct_and?; subst; simpl; try done; try lia;
      by rewrite Hdang.
  - intros b Hb. rewrite deref_created.
    repeat case_decide; destruct_and?; subst; simpl; try done; lia.
Qed.

(** [get_or_create] only ever adds: it keeps the items of every [dict], all
    posting lists and balances, and the names of the nodes there are. *)
Lemma get_or_create_loop_frame components :
  ∀ h ra path h' a,
    get_or_create_loop h ra path components = Ok (h', a) →
    length h ≤ length h' ∧
    (∀ b k v, dict_get k (children (deref h b)) = Some v →
              dict_get k (children (deref h' b)) = Some v) ∧
    (∀ b, postings (deref h' b) = postings (deref h b)) ∧
    (∀ b, balance (deref h' b) = balance (deref h b)) ∧
    (∀ b, b < length h → account (deref h' b) = account (deref h b)).
Proof.
  induction components as [|c rest IH]; intros h ra path h' a Hrun.
  - simpl in Hrun. by simplify_eq.
  - destruct (dict_get c (children (deref h ra))) as [rc|] eqn:Hget.
    + rewrite (get_or_create_loop_found _ _ _ _ _ rc) in Hrun by done. eauto.
    + destruct (decide (c = "")) as [->|Hc].
      { by rewrite get_or_create_loop_empty_key in Hrun. }
      rewrite get_or_create_loop_created in Hrun by done.
      apply IH in Hrun as (Hlen & Hmono & Hp & Hb & Ha).
      destruct (created_frame h ra path c Hget) as (Hmono0 & Hp0 & Hb0 & Ha0).
      rewrite length_created in *.
      split_and!; [lia|auto|..].
      * intros b. by rewrite Hp, Hp0.
      * intros b. by rewrite Hb, Hb0.
      * intros b ?. rewrite Ha by lia. auto.
Qed.

(** With non-empty components, [get_or_create] raises nothing. *)
Lemma get_or_create_loop_ok components :
  Forall (λ c, c ≠ "") components →
  ∀ h ra path, ∃ h' a, get_or_create_loop h ra path components = Ok (h', a).
Proof.
  induction 1 as [|c rest Hc _ IH]; intros h ra path; [by eexists _, _|].
  destruct (dict_get c (children (deref h ra))) as [rc|] eqn:Hget.
  - rewrite (get_or_create_loop_found _ _ _ _ _ rc) by done. apply IH.
  - rewrite get_or_create_loop_created by done. apply IH.
Qed.

(** When the whole path is there, [get_or_create] finds the node and leaves
    the store as it is. *)
Lemma get_or_create_loop_existing components :
  ∀ h ra path a,
    get_loop h ra components None = Some a →
    get_or_create_loop h ra path components = Ok (h, a).
Proof.
  induction components as [|c rest IH]; intros h ra path a Hget.
  - simpl in *. by simplify_eq.
  - rewrite get_loop_None_cons in Hget.
    destruct (dict_get c (children (deref h ra))) as [rc|] eqn:Hc; [|done].
    rewrite (get_or_create_loop_found _ _ _ _ _ rc) by done. by apply IH.
Qed.


(** ** Stores that hold trees *)



(** A new root, [RealAccount('')], in an empty store. *)
Lemma is_tree_new : is_tree (RealAccount_new [] "").1 (RealAccount_new [] "").2.
Proof.
  split; [simpl; lia|]. exists (λ _, []). split; [done|].
  intros b k c Hk. by destruct b as [|b]; simpl in Hk.
Qed.

(** The node reached along a path has that path. *)
Lemma labelled_get_loop h path_of q :
  labelled h path_of →
  ∀ ra a, get_loop h ra q None = Some a → path_of a = path_of ra ++ q.
Proof.
  intros Hl. induction q as [|c q IH]; intros ra a Hget.
  - simpl in Hget. simplify_eq. by rewrite app_nil_r.
  - rewrite get_loop_None_cons in Hget.
    destruct (dict_get c (children (deref h ra))) as [rc|] eqn:Hc; [|done].
    simpl in Hget. apply IH in Hget as ->.
    destruct (Hl _ _ _ Hc) as (_ & -> & _). by rewrite <- app_assoc.
Qed.

Lemma labelled_get_loop_valid h path_of q :
  labelled h path_of →
  ∀ ra a, ra < length h → get_loop h ra q None = Some a → a < length h.
Proof.
  intros Hl. induction q as [|c q IH]; intros ra a Hra Hget.
  - simpl in Hget. by simplify_eq.
  - rewrite get_loop_None_cons in Hget.
    destruct (dict_get c (children (deref h ra))) as [rc|] eqn:Hc; [|done].
    simpl in Hget. eapply IH; [|done]. by destruct (Hl _ _ _ Hc).
Qed.

Lemma labelled_get_loop_account h path_of q :
  labelled h path_of → q ≠ [] →
  ∀ ra a, get_loop h ra q None = Some a → account (deref h a) = join (path_of a).
Proof.
  intros Hl. induction q as [|c q IH]; intros Hq ra a Hget; [done|].
  rewrite get_loop_None_cons in Hget.
  destruct (dict_get c (children (deref h ra))) as [rc|] eqn:Hc; [|done].
  simpl in Hget. destruct q as [|c' q].
  - simpl in Hget. simplify_eq. by destruct (Hl _ _ _ Hc) as (_ & _ & ?).
  - by eapply IH.
Qed.

(** Items of dictionaries that stay lead to the same nodes. *)
Lemma get_loop_mono h h' q :
  (∀ b k v, dict_get k (children (deref h b)) = Some v →
            dict_get k (children (deref h' b)) = Some v) →
  ∀ ra a, get_loop h ra q None = Some a → get_loop h' ra q None = Some a.
Proof.
  intros Hmono. induction q as [|c q IH]; intros ra a Hget; [done|].
  rewrite get_loop_None_cons in *.
  destruct (dict_get c (children (deref h ra))) as [rc|] eqn:Hc; [|done].
  rewrite (Hmono _ _ _ Hc). simpl in *. auto.
Qed.

Lemma created_edge h ra path c b k x :
  ra < length h →
  dict_get k (children (deref (created h ra path c) b)) = Some x →
  (b = ra ∧ k = c ∧ x = length h) ∨
  (b < length h ∧ dict_get k (children (deref h b)) = Some x).
Proof.
  intros Hra Hk. rewrite deref_created in Hk.
  case_decide as H1; [destruct H1 as [-> _]|].
  - rewrite decide_False in Hk by lia. simpl in Hk.
    destruct (decide (c = k)) as [->|?].
    + rewrite dict_get_set_eq in Hk. left. by simplify_eq.
    + rewrite dict_get_set_ne in Hk by done. by right.
  - case_decide; [done|]. right. split; [|done].
    destruct (decide (b < length h)); [done|].
    by rewrite deref_dangling in Hk by lia.
Qed.

Lemma account_created h ra path c x :
  ra < length h → x < length h →
  account (deref (created h ra path c) x) = account (deref h x).
Proof.
  intros. destruct (decide (x = ra)) as [->|?].
  - by rewrite deref_created_parent.
  - by rewrite deref_created_old.
Qed.

Lemma labelled_created h path_of ra path c :
  labelled h path_of → ra < length h → path_of ra = path →
  dict_get c (children (deref h ra)) = None →
  labelled (created h ra path c) (<[length h := path ++ [c]]> path_of).
Proof.
  intros Hl Hra Hpath Hc b k x Hk.
  rewrite length_created.
  destruct (created_edge _ _ _ _ _ _ _ Hra Hk) as [(-> & -> & ->)|[Hb Hk']].
  - rewrite fn_lookup_insert, (fn_lookup_insert_ne _ _ ra) by lia.
    rewrite deref_created_new by done.
    split_and!; [lia|by rewrite Hpath|done].
  - destruct (Hl _ _ _ Hk') as (Hx & Hp & Ha).
    rewrite (fn_lookup_insert_ne _ _ x), (fn_lookup_insert_ne _ _ b) by lia.
    rewrite account_created by done.
    split_and!; [lia|done..].
Qed.

(** [get_or_create] keeps trees, and on a tree it returns the node at the
    end of the path it was given. *)
Lemma get_or_create_loop_labelled components :
  ∀ h ra path path_of h' a,
    labelled h path_of → ra < length h → path_of ra = path →
    get_or_create_loop h ra path components = Ok (h', a) →
    ∃ path_of',
      labelled h' path_of' ∧
      (∀ b, b < length h → path_of' b = path_of b) ∧
      a < length h' ∧
      get_loop h' ra components None = Some a.
Proof.
  induction components as [|c rest IH];
    intros h ra path path_of h' a Hl Hra Hpath Hrun.
  - simpl in Hrun. simplify_eq. by exists path_of.
  - destruct (dict_get c (children (deref h ra))) as [rc|] eqn:Hget.
    + rewrite (get_or_create_loop_found _ _ _ _ _ rc) in Hrun by done.
      destruct (Hl _ _ _ Hget) as (Hrc & Hp & _).
      destruct (get_or_create_loop_frame _ _ _ _ _ _ Hrun) as (_ & Hmono & _).
      eapply IH in Hrun as (pf' & ? & ? & ? & Hwalk); [|done|done|].
      2:{ by rewrite Hp, Hpath. }
      exists pf'. split_and!; [done..|].
      rewrite get_loop_None_cons, (Hmono _ _ _ Hget). done.
    + destruct (decide (c = "")) as [->|Hc].
      { by rewrite get_or_create_loop_empty_key in Hrun. }
      rewrite get_or_create_loop_created in Hrun by done.
      destruct (get_or_create_loop_frame _ _ _ _ _ _ Hrun) as (_ & Hmono & _).
      pose proof (labelled_created _ _ _ _ c Hl Hra Hpath Hget) as Hl1.
      eapply IH in Hrun as (pf' & ? & Hsame & ? & Hwalk); [|done|..].
      2:{ rewrite length_created. lia. }
      2:{ by rewrite fn_lookup_insert. }
      exists pf'. split_and!; [done| |done|].
      * intros b Hb. rewrite Hsame by (rewrite length_created; lia).
        by rewrite fn_lookup_insert_ne by lia.
      * rewrite get_loop_None_cons.
        rewrite (Hmono ra c (length h)); [done|].
        rewrite deref_created_parent by done. simpl. apply dict_get_set_eq.
Qed.

Lemma is_tree_get_or_create h root account_name h' a :
  is_tree h root →
  get_or_create h root account_name = Ok (h', a) →
  is_tree h' root ∧ a < length h' ∧ get h' root account_name None = Some a
  ∧ account (deref h' a) = account_name.
Proof.
  intros [Hroot (pf & Hpf & Hl)] Hrun.
  destruct (get_or_create_loop_frame _ _ _ _ _ _ Hrun) as (Hlen & _).
  eapply get_or_create_loop_labelled in Hrun
    as (pf' & Hl' & Hsame & Ha & Hwalk); [|done..].
  split_and!; [|done..|].
  - split; [lia|]. exists pf'. split; [|done]. by rewrite Hsame.
  - rewrite (labelled_get_loop_account _ _ _ Hl' (split_not_nil _) _ _ Hwalk).
    rewrite (labelled_get_loop _ _ _ Hl' _ _ Hwalk), Hsame, Hpf by done.
    apply join_split.
Qed.

(** ** [RealAccount.__setitem__] *)

(** C9, as the code has it: [__setitem__] raises [KeyError] exactly when
    the key is not a non-empty string; with a non-empty string for key it
    raises [ValueError] exactly when the value is not a node or is a node
    whose account name does not end with the key; in all other cases it
    succeeds, the child is stored under the key, and nothing else
    changes.  Whether the key is a plain path segment is not tested. *)
Theorem setitem_spec (h : store) (self : addr) (key value : pyobj)
    (Hself : self < length h) :
  (setitem h self key value = Raise KeyError ↔ ¬ valid_key key) ∧
  (setitem h self key value = Raise ValueError ↔
     ∃ k, key = PyStr k ∧ k ≠ "" ∧ ¬ valid_value h k value) ∧
  (∀ k v, key = PyStr k → k ≠ "" → value = PyReal v →
     endswith (account (deref h v)) k = true →
     ∃ h', setitem h self key value = Ok h' ∧
       dict_get k (children (deref h' self)) = Some v ∧
       (∀ k', k' ≠ k → dict_get k' (children (deref h' self))
                       = dict_get k' (children (deref h self))) ∧
       account (deref h' self) = account (deref h self) ∧
       postings (deref h' self) = postings (deref h self) ∧
       balance (deref h' self) = balance (deref h self) ∧
       (∀ b, b ≠ self → deref h' b = deref h b)).
Proof.
  unfold valid_key, valid_value. split_and!.
  - unfold setitem. destruct key as [k| |].
    + case_decide as Hk.
      { split; [|done]. intros _ (k' & ? & ?). by simplify_eq. }
      assert (∃ k0, PyStr k = PyStr k0 ∧ k0 ≠ "") as Hex by (by exists k).
      destruct value as [s|v|]; [|destruct (endswith _ _)|]; by split.
    + split; [|done]. by intros _ (k' & ? & ?).
    + split; [|done]. by intros _ (k' & ? & ?).
  - unfold setitem. destruct key as [k| |].
    + case_decide as Hk.
      { split; [done|]. intros (k' & ? & ? & _). by simplify_eq. }
      destruct value as [s|v|]; [|destruct (endswith _ _) eqn:He|].
      * split; [|done]. intros _. exists k. split_and!; [done..|].
        by intros (v' & ? & ?).
      * split; [done|]. intros (k' & ? & ? & Hv). simplify_eq.
        destruct Hv. by exists v.
      * split; [|done]. intros _. exists k. split_and!; [done..|].
        intros (v' & ? & ?). simplify_eq. congruence.
      * split; [|done]. intros _. exists k. split_and!; [done..|].
        by intros (v' & ? & ?).
    + split; [done|]. by intros (k' & ? & _).
    + split; [done|]. by intros (k' & ? & _).
  - intros k v -> Hk -> He. rewrite setitem_ok by done.
    eexists. split; [done|].
    rewrite deref_insert_eq by done. simpl.
    split_and!; [apply dict_get_set_eq| |done..|].
    + intros k' ?. by apply dict_get_set_ne.
    + intros b ?. by apply deref_insert_ne.
Qed.

Lemma setitem_spec_witness :
  ∃ h', setitem [RealAccount_init ""; RealAccount_init "Assets"] 0
                (PyStr "Assets") (PyReal 1) = Ok h' ∧
        dict_get "Assets" (children (deref h' 0)) = Some 1.
Proof.
  destruct (setitem_spec [RealAccount_init ""; RealAccount_init "Assets"] 0
              (PyStr "Assets") (PyReal 1)) as (_ & _ & H).
  - simpl. lia.
  - destruct (H "Assets" 1) as (h' & Hh' & Hget & _); [done..|].
    exists h'. by split.
Defined.

(** C9 fails as stated: a child whose name does not end with the key is
    refused with [ValueError], which is no [KeyError]; so is a value that is
    not a node; and a key that holds the separator, which is no plain path
    segment, is accepted. *)
Lemma setitem_counterexample :
  let h := [RealAccount_init ""; RealAccount_init "Assets:Savings"] in
  setitem h 0 (PyStr "Checking") (PyReal 1) = Raise ValueError ∧
  setitem h 0 (PyStr "Checking") PyOther = Raise ValueError ∧
  is_KeyError ValueError = false ∧
  (∃ h', setitem h 0 (PyStr "Assets:Savings") (PyReal 1) = Ok h' ∧
         dict_get "Assets:Savings" (children (deref h' 0)) = Some 1).
Proof. split_and!; [done..|]. eexists. by split. Qed.

(** ** [get_or_create] on an existing path *)

Lemma realize_min_accounts_frame min_accounts :
  ∀ h root h',
    realize_min_accounts h root min_accounts = Ok h' →
    length h ≤ length h' ∧
    (∀ b k v, dict_get k (children (deref h b)) = Some v →
              dict_get k (children (deref h' b)) = Some v) ∧
    (∀ b, postings (deref h' b) = postings (deref h b)) ∧
    (∀ b, balance (deref h' b) = balance (deref h b)).
Proof.
  induction min_accounts as [|A rest IH]; intros h root h' Hrun.
  - simpl in Hrun. by simplify_eq.
  - cbn [realize_min_accounts] in Hrun.
    destruct (get_or_create h root A) as [[h1 a]|] eqn:Hgoc; [|done].
    simpl in Hrun.
    apply get_or_create_loop_frame in Hgoc as (Hlen & Hmono & Hp & Hb & _).
    apply IH in Hrun as (Hlen' & Hmono' & Hp' & Hb').
    split_and!; [lia|auto|..].
    + intros b. by rewrite Hp', Hp.
    + intros b. by rewrite Hb', Hb.
Qed.

(** What [realize] returns with [min_accounts], from what it returns
    without. *)
Lemma realize_Some_inv entries min_accounts h2 root :
  realize entries (Some min_accounts) = Ok (h2, root) →
  ∃ h1, realize entries None = Ok (h1, root) ∧
        realize_min_accounts h1 root min_accounts = Ok h2.
Proof.
  unfold realize. simpl.
  destruct (realize_postings _ _ _) as [h1|]; [|done]. simpl.
  destruct (realize_min_accounts _ _ _) as [h2'|] eqn:Hmin; [|done]. simpl.
  intros ?; simplify_eq. by exists h1.
Qed.

(** C10: when the whole path of an account name is in the tree,
    [get_or_create] returns the node at its end and the store is the one it
    was: no posting list, balance or [dict] of children has changed.  The
    calls that [realize] makes for [min_accounts] leave the posting list and
    the balance of every node as the first loop has set them, and every
    account is still found where it was. *)
Theorem get_or_create_existing (h : store) (root : addr) (account_name : string)
    (a : addr) (Hexists : get h root account_name None = Some a) :
  get_or_create h root account_name = Ok (h, a) ∧
  (∀ entries min_accounts h2 r,
     realize entries (Some min_accounts) = Ok (h2, r) →
     ∃ h1, realize entries None = Ok (h1, r) ∧
       (∀ b, postings (deref h2 b) = postings (deref h1 b) ∧
             balance (deref h2 b) = balance (deref h1 b)) ∧
       (∀ A b, get h1 r A None = Some b → get h2 r A None = Some b)).
Proof.
  split; [by apply get_or_create_loop_existing|].
  intros entries min_accounts h2 r Hrun.
  apply realize_Some_inv in Hrun as (h1 & Hrun & Hmin).
  apply realize_min_accounts_frame in Hmin as (_ & Hmono & Hp & Hb).
  exists h1. split_and!; [done|by split|].
  intros A b. by apply get_loop_mono.
Qed.

Lemma get_or_create_existing_witness :
  let h := [with_child (RealAccount_init "") "Assets" 1; RealAccount_init "Assets"] in
  get_or_create h 0 "Assets" = Ok (h, 1).
Proof.
  intros h. by apply (get_or_create_existing h 0 "Assets" 1).
Defined.

(** ** [get_or_create] and the identity of nodes *)

(** C7: on a tree and a well-formed account name, [get_or_create] returns a
    node whose [account] is the name; a second call with the same name
    returns the same node, the one at the same address, and leaves the
    store as it is, so that no node is created twice. *)
Theorem get_or_create_idempotent (h : store) (root : addr) (account_name : string)
    (Htree : is_tree h root) (Hname : well_formed account_name) :
  ∃ h' a,
    get_or_create h root account_name = Ok (h', a) ∧
    a < length h' ∧
    account (deref h' a) = account_name ∧
    get_or_create h' root account_name = Ok (h', a) ∧
    is_tree h' root.
Proof.
  destruct (get_or_create_loop_ok _ Hname h root []) as (h' & a & Hrun).
  destruct (is_tree_get_or_create _ _ _ _ _ Htree Hrun) as (? & ? & Hget & ?).
  exists h', a. split_and!; [done..| |done].
  by apply get_or_create_loop_existing.
Qed.

Lemma get_or_create_idempotent_witness :
  ∃ h' a,
    get_or_create [RealAccount_init ""] 0 "Assets:Checking" = Ok (h', a) ∧
    account (deref h' a) = "Assets:Checking" ∧
    get_or_create h' 0 "Assets:Checking" = Ok (h', a).
Proof.
  destruct (get_or_create_idempotent [RealAccount_init ""] 0 "Assets:Checking")
    as (h' & a & H1 & _ & H2 & H3 & _).
  - apply is_tree_new.
  - unfold well_formed. simpl. by repeat constructor.
  - by exists h', a.
Defined.

(** ** [get] with the empty name *)

Lemma no_empty_key_created h ra path c :
  c ≠ "" → no_empty_key h → no_empty_key (created h ra path c).
Proof.
  intros Hc Hh b. rewrite deref_created.
  repeat case_decide; unfold with_child; cbn [children];
    rewrite ?dict_get_set_ne by done; try done; apply Hh.
Qed.

Lemma get_or_create_loop_no_empty_key components :
  ∀ h ra path h' a,
    no_empty_key h →
    get_or_create_loop h ra path components = Ok (h', a) →
    no_empty_key h'.
Proof.
  induction components as [|c rest IH]; intros h ra path h' a Hh Hrun.
  - simpl in Hrun. by simplify_eq.
  - destruct (dict_get c (children (deref h ra))) as [rc|] eqn:Hget.
    + rewrite (get_or_create_loop_found _ _ _ _ _ rc) in Hrun by done. eauto.
    + destruct (decide (c = "")) as [->|Hc].
      { by rewrite get_or_create_loop_empty_key in Hrun. }
      rewrite get_or_create_loop_created in Hrun by done.
      eapply IH; [|done]. by apply no_empty_key_created.
Qed.

(** C8, as the code has it: the empty name splits into the one empty
    component, which is the key of no child, so that [get] with the empty
    name on the node [get_or_create] returns gives the default, [None]
    when none is passed, and not the node. *)
Theorem get_empty_name (h : store) (root : addr) (account_name : string)
    (default : option addr)
    (Hkeys : no_empty_key h) (Hname : well_formed account_name) :
  ∃ h' a,
    get_or_create h root account_name = Ok (h', a) ∧
    get h' a "" default = default.
Proof.
  destruct (get_or_create_loop_ok _ Hname h root []) as (h' & a & Hrun).
  exists h', a. split; [done|].
  apply get_or_create_loop_no_empty_key in Hrun; [|done].
  unfold get. simpl. by rewrite Hrun.
Qed.

Lemma get_empty_name_witness :
  ∃ h' a,
    get_or_create [RealAccount_init ""] 0 "Assets" = Ok (h', a) ∧
    get h' a "" None = None.
Proof.
  apply (get_empty_name [RealAccount_init ""] 0 "Assets" None).
  - intros [|b]; [done|]. by rewrite deref_dangling by (simpl; lia).
  - unfold well_formed. simpl. by repeat constructor.
Defined.

(** C8 fails as stated: on a new root, [get] with the empty name on the
    node of [Assets] returns [None], not the node. *)
Lemma get_empty_name_counterexample :
  ∃ h' a,
    get_or_create [RealAccount_init ""] 0 "Assets" = Ok (h', a) ∧
    get h' a "" None = None ∧
    get h' a "" None ≠ Some a.
Proof. eexists _, _. split_and!; [done..]. Qed.

(** ** [group_by_account] *)

Lemma dict_get_append_to k x m k' :
  dict_get k' (append_to k x m)
  = if decide (k = k') then Some (default [] (dict_get k m) ++ [x])
    else dict_get k' m.
Proof.
  induction m as [|[k1 l1] m IH]; simpl.
  - by repeat case_decide.
  - repeat (case_decide; simpl; simplify_eq); rewrite ?IH;
      repeat case_decide; done.
Qed.

Lemma append_to_keys k x m :
  (append_to k x m).*1 = if decide (k ∈ m.*1) then m.*1 else m.*1 ++ [k].
Proof.
  induction m as [|[k1 l1] m IH]; [done|].
  cbn [append_to]. destruct (decide (k1 = k)) as [->|Hne]; rewrite !fmap_cons.
  - rewrite decide_True; [done|]. apply elem_of_cons. by left.
  - rewrite IH. cbn [fst]. destruct (decide (k ∈ m.*1)).
    + rewrite decide_True; [done|]. apply elem_of_cons. by right.
    + rewrite decide_False; [done|]. by intros [?|?]%elem_of_cons.
Qed.

Lemma append_to_NoDup k x m : NoDup m.*1 → NoDup (append_to k x m).*1.
Proof.
  intros Hm. rewrite append_to_keys. case_decide; [done|].
  apply NoDup_app. split_and!; [done| |apply NoDup_singleton].
  intros y Hy ->%list_elem_of_singleton. done.
Qed.

Lemma append_to_concat k y m :
  concat (append_to k y m).*2 ≡ₚ concat m.*2 ++ [y].
Proof.
  induction m as [|[k1 l1] m IH]; [done|].
  cbn [append_to]. destruct (decide (k1 = k)) as [->|];
    rewrite !fmap_cons; cbn [concat snd].
  - rewrite <- !app_assoc. apply Permutation_app_head, Permutation_app_comm.
  - by rewrite IH, app_assoc.
Qed.


(** The code makes the insertions of the specification, one by one. *)
Lemma group_by_account_insertions entries :
  group_by_account entries
  = foldl (λ m kx, append_to kx.1 kx.2 m) [] (entries ≫= insertions).
Proof.
  unfold group_by_account. generalize (@nil (string * list PostingOrEntry)).
  induction entries as [|entry entries IH]; intros m; [done|].
  cbn [foldl]. rewrite IH. rewrite bind_cons, foldl_app. f_equal.
  destruct entry as [e ps| | | | | | | |]; try done.
  simpl. clear. revert m. induction ps as [|p ps IH]; intros m; [done|].
  simpl. apply IH.
Qed.

Lemma dict_get_insertions ins :
  ∀ m k,
    dict_get k (foldl (λ m kx, append_to kx.1 kx.2 m) m ins)
    = match dict_get k m, (base.filter (λ kx, kx.1 = k) ins).*2 with
      | None, [] => None
      | o, l => Some (default [] o ++ l)
      end.
Proof.
  induction ins as [|[k1 x] ins IH]; intros m k.
  - simpl. destruct (dict_get k m); [|done].
    simpl. by rewrite app_nil_r.
  - cbn [foldl]. rewrite IH, dict_get_append_to, filter_cons. simpl.
    case_decide; simplify_eq; simpl.
    + rewrite <- app_assoc. simpl. by destruct (dict_get k m).
    + done.
Qed.

Lemma NoDup_insertions ins :
  ∀ m, NoDup m.*1 → NoDup (foldl (λ m kx, append_to kx.1 kx.2 m) m ins).*1.
Proof.
  induction ins as [|[k x] ins IH]; intros m Hm; [done|].
  simpl. apply IH. by apply append_to_NoDup.
Qed.

(** The lists of the map hold the insertions, each as often as it was
    made. *)
Lemma concat_insertions ins :
  ∀ m, concat (foldl (λ m kx, append_to kx.1 kx.2 m) m ins).*2
       ≡ₚ concat m.*2 ++ ins.*2.
Proof.
  induction ins as [|[k y] ins IH]; intros m.
  - simpl. by rewrite app_nil_r.
  - cbn [foldl]. rewrite IH, append_to_concat, fmap_cons, <- app_assoc. done.
Qed.


(** A directive is inserted by itself only, and a transaction never. *)
Lemma insertions_IsEntry entry k d :
  (k, IsEntry d) ∈ insertions entry →
  d = entry ∧ ∀ e ps, d ≠ Transaction e ps.
Proof.
  destruct entry; simpl; rewrite ?elem_of_cons, ?list_elem_of_fmap;
    intros H; destruct_or?; simplify_eq; try done;
    try by apply elem_of_nil in H.
  by destruct H as (? & ? & ?).
Qed.

Lemma filter_none {A} (P : A → Prop) `{∀ x, Decision (P x)} (l : list A) :
  (∀ x, x ∈ l → ¬ P x) → base.filter P l = [].
Proof.
  induction l as [|x l IH]; intros Hl; [done|].
  rewrite filter_cons, decide_False by (apply Hl, elem_of_cons; by left).
  apply IH. intros y ?. apply Hl, elem_of_cons. by right.
Qed.

Lemma insertions_count entry d :
  length (base.filter (λ y, y = IsEntry d) (insertions entry).*2)
  = match d with
    | Pad _ _ _ => if decide (entry = d) then 2 else 0
    | Transaction _ _ | Price _ | Event _ => 0
    | _ => if decide (entry = d) then 1 else 0
    end.
Proof.
  destruct (decide (entry = d)) as [->|Hne].
  - destruct d; try done; cbn [insertions];
      rewrite ?fmap_cons, ?filter_cons, ?decide_True by done; try done.
    rewrite filter_none; [done|]. intros y Hy ->.
    apply list_elem_of_fmap in Hy as ([k y] & ? & Hy). simplify_eq/=.
    apply list_elem_of_fmap in Hy as (? & ? & _). done.
  - rewrite filter_none; [by destruct d|]. intros y Hy ->.
    apply list_elem_of_fmap in Hy as ([k y] & ? & Hy). simplify_eq/=.
    apply insertions_IsEntry in Hy as [? _]. done.
Qed.

(** C3: [group_by_account] maps an account name to the list of the
    insertions made under it, in the order of the input stream, the
    insertions being those the specification lists: the postings of a
    transaction, each under its own account, and never the transaction;
    an [Open], [Close], [Balance], [Note] or [Document] under its account;
    a [Pad] under its account and under the account it pads from, that is
    twice for each time it stands in the input; nothing for other
    directives.  Account names without insertion are no keys of the map. *)
Theorem group_by_account_spec (entries : list Directive) :
  (∀ account_name,
     dict_get account_name (group_by_account entries)
     = match grouped entries account_name with
       | [] => None
       | l => Some l
       end) ∧
  NoDup (group_by_account entries).*1 ∧
  (∀ account_name l e ps,
     dict_get account_name (group_by_account entries) = Some l →
     IsEntry (Transaction e ps) ∉ l) ∧
  (∀ e acc acc_pad,
     occurrences (IsEntry (Pad e acc acc_pad)) (group_by_account entries)
     = 2 * length (base.filter (λ d, d = Pad e acc acc_pad) entries)).
Proof.
  rewrite group_by_account_insertions. split_and!.
  - intros k. rewrite dict_get_insertions. simpl. unfold grouped.
    by destruct (_.*2).
  - apply NoDup_insertions. constructor.
  - intros k l e ps. rewrite dict_get_insertions. simpl.
    intros Hl Hin.
    assert (l = (base.filter (λ kx, kx.1 = k) (entries ≫= insertions)).*2) as ->.
    { destruct (_.*2); by simplify_eq. }
    apply list_elem_of_fmap in Hin as ([k' y] & ? & Hin). simplify_eq/=.
    apply list_elem_of_filter in Hin as [_ Hin].
    apply list_elem_of_bind in Hin as (d & Hin & _).
    apply insertions_IsEntry in Hin as [_ Hin]. by eapply Hin.
  - intros e acc acc_pad. unfold occurrences.
    rewrite concat_insertions. simpl.
    induction entries as [|d entries IH]; [done|].
    rewrite bind_cons, fmap_app, filter_app, length_app, IH, filter_cons.
    rewrite insertions_count. case_decide; simpl; lia.
Qed.

(** ** [realize] *)

Lemma compute_postings_balance_positions l :
  compute_postings_balance l = foldl add_position Inventory_new (posting_positions l).
Proof.
  unfold compute_postings_balance. generalize Inventory_new.
  induction l as [|[p|d] l IH]; intros inv; simpl; auto.
Qed.

Lemma deref_set_postings h a l b x :
  deref (set_postings h a l b) x =
    if decide (x = a ∧ a < length h)
    then mkRealAccount (account (deref h a)) l b (children (deref h a))
    else deref h x.
Proof.
  unfold set_postings. case_decide as H; [destruct H as [-> ?]|].
  - by rewrite deref_insert_eq.
  - destruct (decide (a = x)) as [->|?].
    + rewrite list_insert_ge; [done|]. lia.
    + by rewrite deref_insert_ne.
Qed.

Lemma children_set_postings h a l b x :
  children (deref (set_postings h a l b) x) = children (deref h x).
Proof. rewrite deref_set_postings. by case_decide as H; [destruct H as [-> ?]|]. Qed.

Lemma account_set_postings h a l b x :
  account (deref (set_postings h a l b) x) = account (deref h x).
Proof. rewrite deref_set_postings. by case_decide as H; [destruct H as [-> ?]|]. Qed.

Lemma length_set_postings h a l b : length (set_postings h a l b) = length h.
Proof. apply length_insert. Qed.

Lemma is_tree_set_postings h root a l b :
  is_tree h root → is_tree (set_postings h a l b) root.
Proof.
  intros [Hroot (pf & Hpf & Hl)]. split; [by rewrite length_set_postings|].
  exists pf. split; [done|]. intros x k c.
  rewrite children_set_postings, account_set_postings, length_set_postings.
  apply Hl.
Qed.

Lemma get_loop_set_postings h a l b q ra :
  get_loop (set_postings h a l b) ra q None = get_loop h ra q None.
Proof.
  revert ra. induction q as [|c q IH]; intros ra; [done|].
  rewrite !get_loop_None_cons, children_set_postings.
  destruct (dict_get _ _); simpl; auto.
Qed.

(** Two paths from the root of a tree that reach the same node are the
    same path. *)
Lemma is_tree_get_loop_inj h root q1 q2 a :
  is_tree h root →
  get_loop h root q1 None = Some a → get_loop h root q2 None = Some a →
  q1 = q2.
Proof.
  intros [_ (pf & Hpf & Hl)] H1 H2.
  apply (labelled_get_loop _ _ _ Hl) in H1, H2.
  rewrite Hpf in *. simpl in *. congruence.
Qed.

(** The first loop of [realize] on a tree: every item of the postings map
    ends up at the node of its account, and the nodes of other paths keep
    their postings and balance. *)
Lemma realize_postings_spec root items :
  ∀ h,
    is_tree h root → NoDup items.*1 → Forall well_formed items.*1 →
    ∃ h',
      realize_postings h root items = Ok h' ∧ is_tree h' root ∧
      (∀ account_name l, (account_name, l) ∈ items →
         ∃ a, get h' root account_name None = Some a ∧
              postings (deref h' a) = l ∧
              balance (deref h' a) = compute_postings_balance l) ∧
      (∀ q a, get_loop h root q None = Some a → q ∉ split <$> items.*1 →
         get_loop h' root q None = Some a ∧
         postings (deref h' a) = postings (deref h a) ∧
         balance (deref h' a) = balance (deref h a)).
Proof.
  induction items as [|[A l] items IH]; intros h Htree Hnd Hwf.
  - exists h. split_and!; [done..| |done]. by intros ?? ?%elem_of_nil.
  - rewrite fmap_cons in Hnd, Hwf. cbn [fst] in Hnd, Hwf.
    apply NoDup_cons in Hnd as [HA Hnd]. apply Forall_cons in Hwf as [HwA Hwf].
    destruct (get_or_create_loop_ok _ HwA h root []) as (h1 & a & Hgoc).
    fold (get_or_create h root A) in Hgoc.
    destruct (is_tree_get_or_create _ _ _ _ _ Htree Hgoc)
      as (Htree1 & Ha & Hget1 & _).
    destruct (get_or_create_loop_frame _ _ _ _ _ _ Hgoc)
      as (_ & Hmono & Hp1 & Hb1 & _).
    set (h2 := set_postings h1 a l (compute_postings_balance l)).
    assert (is_tree h2 root) as Htree2 by by apply is_tree_set_postings.
    destruct (IH h2 Htree2 Hnd Hwf) as (h' & Hrun & Htree' & Hitems & Hframe).
    assert (split A ∉ split <$> items.*1) as HA'.
    { intros (B & HB & ?)%list_elem_of_fmap. apply split_inj in HB as <-. done. }
    exists h'. split_and!; [|done|..].
    + cbn [realize_postings]. rewrite Hgoc. simpl. exact Hrun.
    + intros B l' [?|Hin]%elem_of_cons; simplify_eq; [|eauto].
      exists a. destruct (Hframe (split A) a) as (Hget & Hp & Hb); [|done|].
      { unfold h2. by rewrite get_loop_set_postings. }
      split; [done|]. rewrite Hp, Hb. unfold h2.
      rewrite deref_set_postings, decide_True by done. done.
    + intros q x Hq Hnotin.
      rewrite !fmap_cons, not_elem_of_cons in Hnotin. destruct Hnotin as [HqA Hq'].
      pose proof (get_loop_mono _ _ _ Hmono _ _ Hq) as Hq1.
      assert (x ≠ a) as Hxa.
      { intros ->. apply HqA. simpl.
        exact (is_tree_get_loop_inj _ _ _ _ _ Htree1 Hq1 Hget1). }
      destruct (Hframe q x) as (Hget & Hp & Hb); [|done|].
      { unfold h2. by rewrite get_loop_set_postings. }
      split; [done|]. rewrite Hp, Hb. unfold h2.
      rewrite deref_set_postings, decide_False by (by intros [? _]).
      by rewrite Hp1, Hb1.
Qed.

Lemma realize_min_accounts_ok min_accounts :
  Forall well_formed min_accounts →
  ∀ h root, ∃ h', realize_min_accounts h root min_accounts = Ok h'.
Proof.
  induction 1 as [|A rest HA _ IH]; intros h root; [by eexists|].
  destruct (get_or_create_loop_ok _ HA h root []) as (h1 & a & Hgoc).
  fold (get_or_create h root A) in Hgoc.
  destruct (IH h1 root) as (h' & Hrun). exists h'.
  cbn [realize_min_accounts]. by rewrite Hgoc.
Qed.

Lemma group_by_account_nonempty entries account_name l :
  dict_get account_name (group_by_account entries) = Some l → l ≠ [].
Proof.
  rewrite group_by_account_insertions, dict_get_insertions. simpl.
  destruct (_.*2); by intros; simplify_eq.
Qed.

(** C1, as the code has it: when the account names of the directives and of
    [min_accounts] are well-formed, [realize] returns a root such that, for
    every account name with a list in the map of [group_by_account] (a list
    that is never empty), the node at the path of the name has that list
    for its postings and, for its balance, the inventory that adding the
    positions of the [Posting]s of the list in turn gives; the directives in
    the list add nothing.  In the scenario the root has the children
    [Assets] and [Expenses], with [Checking] of balance -100 USD below the
    first and [Food] of balance 100 USD below the second, and the posting
    list of [Assets:Checking] has two elements, the [Open] directive and
    the one [Posting]. *)
Theorem realize_spec (entries : list Directive) (min_accounts : option (list string))
    (Hentries : Forall well_formed (group_by_account entries).*1)
    (Hmin : Forall well_formed (default [] min_accounts)) :
  (∃ h root,
     realize entries min_accounts = Ok (h, root) ∧
     ∀ account_name l,
       dict_get account_name (group_by_account entries) = Some l →
       l ≠ [] ∧
       ∃ a, get h root account_name None = Some a ∧
            postings (deref h a) = l ∧
            balance (deref h a)
            = foldl add_position Inventory_new (posting_positions l)) ∧
  (∃ h root a,
     realize scenario None = Ok (h, root) ∧
     snapshot 3 h root = Some scenario_tree ∧
     get h root "Assets:Checking" None = Some a ∧
     postings (deref h a)
     = [IsEntry scenario_open_checking; IsPosting scenario_posting_checking] ∧
     length (postings (deref h a)) = 2 ∧
     length (posting_positions (postings (deref h a))) = 1).
Proof.
  split.
  - pose proof is_tree_new as Htree. simpl in Htree.
    assert (NoDup (group_by_account entries).*1) as Hnd.
    { rewrite group_by_account_insertions. apply NoDup_insertions. constructor. }
    destruct (realize_postings_spec 0 _ _ Htree Hnd Hentries)
      as (h1 & Hrun1 & Htree1 & Hitems & _).
    assert (∃ h2, match min_accounts with
                  | Some l => realize_min_accounts h1 0 l
                  | None => Ok h1
                  end = Ok h2 ∧
                  (∀ b k v, dict_get k (children (deref h1 b)) = Some v →
                            dict_get k (children (deref h2 b)) = Some v) ∧
                  (∀ b, postings (deref h2 b) = postings (deref h1 b)) ∧
                  (∀ b, balance (deref h2 b) = balance (deref h1 b)))
      as (h2 & Hrun2 & Hmono & Hp & Hb).
    { destruct min_accounts as [l|]; simpl in Hmin.
      - destruct (realize_min_accounts_ok _ Hmin h1 0) as (h2 & Hrun2).
        exists h2. split; [done|].
        by destruct (realize_min_accounts_frame _ _ _ _ Hrun2) as (_ & ? & ? & ?).
      - by exists h1. }
    exists h2, 0. split.
    + unfold realize. simpl. rewrite Hrun1. simpl. by rewrite Hrun2.
    + intros A l Hl. split; [by eapply group_by_account_nonempty|].
      destruct (Hitems A l) as (a & Hget & Hpa & Hba).
      { by apply dict_get_Some_elem_of. }
      exists a. split_and!.
      * by apply (get_loop_mono _ _ _ Hmono).
      * by rewrite Hp.
      * by rewrite Hb, Hba, compute_postings_balance_positions.
  - eexists _, _, _. split_and!; [vm_compute; reflexivity|..]; by vm_compute.
Qed.

Lemma realize_spec_witness :
  ∃ h root a,
    realize scenario (Some ["Assets"; "Income"]) = Ok (h, root) ∧
    get h root "Expenses:Food" None = Some a ∧
    balance (deref h a) = {[ simple_lot "USD" := 100%Z ]}.
Proof.
  destruct (realize_spec scenario (Some ["Assets"; "Income"]))
    as [(h & root & Hrun & Hspec) _].
  - by vm_compute; repeat constructor.
  - by vm_compute; repeat constructor.
  - destruct (Hspec "Expenses:Food"
                [IsEntry scenario_open_food; IsPosting scenario_posting_food])
      as (_ & a & Hget & _ & Hb); [done|].
    exists h, root, a. split_and!; [done..|]. by rewrite Hb.
Defined.

(** C1 fails as stated: in the scenario the posting list of
    [Assets:Checking] has two elements, not one, as the [Open] directive of
    the account is in it; and a directive list with an account name that
    has an empty component is not realized. *)
Lemma realize_counterexample :
  (∃ h root a,
     realize scenario None = Ok (h, root) ∧
     get h root "Assets:Checking" None = Some a ∧
     length (postings (deref h a)) = 2 ∧
     length (postings (deref h a)) ≠ 1) ∧
  realize [Open (mkEntry 1 20140101) ""] None = Raise KeyError.
Proof.
  split; [|done]. eexists _, _, _.
  split_and!; [vm_compute; reflexivity|by vm_compute..].
Qed.

(** ** [iter_children] *)

(** Induction on trees, with the property at hand for all children. *)
Lemma RealTree_ind_children (P : RealTree → Prop) :
  (∀ a ps b cs, Forall (λ kc : string * RealTree, P kc.2) cs → P (Node a ps b cs)) →
  ∀ t, P t.
Proof.
  intros H. fix IH 1. intros [a ps b cs]. apply H.
  induction cs as [|[k c] cs IHcs]; constructor; [apply IH|apply IHcs].
Qed.

Section sorted_facts.
Context {V : Type}.
Implicit Types l : list (string * V).

Lemma sorted_insert_Permutation x l : sorted_insert x l ≡ₚ x :: l.
Proof.
  induction l as [|y l IH]; simpl; [done|].
  case_match; [done|]. rewrite IH. apply Permutation_swap.
Qed.

Lemma sorted_Permutation l : sorted l ≡ₚ l.
Proof.
  induction l as [|x l IH]; simpl; [done|].
  by rewrite sorted_insert_Permutation, IH.
Qed.

Lemma key_le_total (x y : string * V) : key_le x y ∨ key_le y x.
Proof. apply (total String.le). Qed.

Lemma key_le_trans (x y z : string * V) : key_le x y → key_le y z → key_le x z.
Proof. unfold key_le. apply (transitivity (R:=String.le)). Qed.

Lemma sorted_insert_Sorted x l :
  StronglySorted key_le l → StronglySorted key_le (sorted_insert x l).
Proof.
  induction l as [|y l IH]; intros Hl; simpl.
  - repeat constructor.
  - apply StronglySorted_cons in Hl as [Hy Hl].
    destruct (String.leb x.1 y.1) eqn:Hxy.
    + apply StronglySorted_cons. split.
      * constructor; [unfold key_le, String.le; by rewrite Hxy|].
        eapply Forall_impl; [done|]. intros z Hz. simpl in Hz.
        apply (key_le_trans _ y); [|done]. unfold key_le, String.le. by rewrite Hxy.
      * by apply StronglySorted_cons.
    + apply StronglySorted_cons. split; [|auto].
      rewrite sorted_insert_Permutation. constructor; [|done].
      destruct (key_le_total x y) as [Hle|Hle]; [|done].
      unfold key_le, String.le in Hle. by rewrite Hxy in Hle.
Qed.

Lemma sorted_Sorted l : StronglySorted key_le (sorted l).
Proof.
  induction l as [|x l IH]; simpl; [constructor|].
  by apply sorted_insert_Sorted.
Qed.

Lemma NoDup_keys_eq l x y : NoDup l.*1 → x ∈ l → y ∈ l → x.1 = y.1 → x = y.
Proof.
  intros Hnd Hx Hy Hk. destruct x as [k v], y as [k' v']. simpl in Hk. subst.
  apply (dict_get_NoDup _ _ _ Hnd) in Hx, Hy. congruence.
Qed.

(** With unique keys, the sorted list of the items does not depend on the
    order of the items. *)
Lemma sorted_unique l1 l2 : NoDup l1.*1 → l1 ≡ₚ l2 → sorted l1 = sorted l2.
Proof.
  intros Hnd Hperm.
  apply (StronglySorted_unique_strong key_le); [|apply sorted_Sorted..|].
  - intros x y Hx Hy Hxy Hyx.
    rewrite sorted_Permutation in Hx, Hy. rewrite <- Hperm in Hy.
    apply (NoDup_keys_eq l1); [done..|].
    by apply (anti_symm String.le).
  - by rewrite !sorted_Permutation.
Qed.

End sorted_facts.

Lemma sorted_cons {V} (x : string * V) l :
  sorted (x :: l) = sorted_insert x (sorted l).
Proof. done. Qed.

(** Sorting by key and changing the values can be done in either order. *)
Lemma sorted_insert_fmap {V W} (f : V → W) x (l : list (string * V)) :
  sorted_insert (x.1, f x.2) (prod_map id f <$> l)
  = prod_map id f <$> sorted_insert x l.
Proof.
  induction l as [|[ky vy] l IH]; [done|].
  rewrite fmap_cons. cbn [sorted_insert fst prod_map id].
  destruct (String.leb x.1 ky); [reflexivity|].
  rewrite !fmap_cons. f_equal. apply IH.
Qed.

Lemma sorted_fmap {V W} (f : V → W) (l : list (string * V)) :
  sorted (prod_map id f <$> l) = prod_map id f <$> sorted l.
Proof.
  induction l as [|x l IH]; [done|].
  rewrite fmap_cons, !sorted_cons, IH. by destruct x; rewrite <- sorted_insert_fmap.
Qed.

(** The equation of [iter_children], in the form of the Python source: the
    recursive calls are made on the children in sorted key order. *)
Lemma iter_children_unfold a ps b items leaf_only :
  iter_children (Node a ps b items) leaf_only
  = let subs := sorted items ≫= λ kc, iter_children kc.2 leaf_only in
    if leaf_only then
      if decide (length items = 0) then [Node a ps b items] else subs
    else Node a ps b items :: subs.
Proof.
  assert (concat (sorted (map (λ kc : string * RealTree,
                    (kc.1, iter_children kc.2 leaf_only)) items)).*2
          = sorted items ≫= λ kc, iter_children kc.2 leaf_only) as Heq.
  { change (map (λ kc : string * RealTree, (kc.1, iter_children kc.2 leaf_only)) items)
      with (prod_map id (λ c, iter_children c leaf_only) <$> items).
    rewrite sorted_fmap, <- list_fmap_compose.
    generalize (sorted items). intros l.
    induction l as [|[k c] l IH]; [done|].
    rewrite fmap_cons, bind_cons. cbn [concat]. by rewrite IH. }
  destruct leaf_only; simpl; by rewrite Heq.
Qed.

Lemma filter_bind {A B} (P : B → Prop) `{∀ x, Decision (P x)}
    (f : A → list B) (l : list A) :
  base.filter P (l ≫= f) = l ≫= λ x, base.filter P (f x).
Proof.
  induction l as [|x l IH]; [done|].
  by rewrite !bind_cons, filter_app, IH.
Qed.

Lemma bind_ext_Forall {A B} (f g : A → list B) (l : list A) :
  Forall (λ x, f x = g x) l → l ≫= f = l ≫= g.
Proof.
  induction 1 as [|x l Hx _ IH]; [done|]. by rewrite !bind_cons, Hx, IH.
Qed.

(** With [leaf_only], the nodes yielded are the nodes without children
    among those yielded without it, in the same order. *)
Lemma iter_children_leaves t :
  iter_children t true = base.filter is_leaf (iter_children t false).
Proof.
  induction t as [a ps b cs IH] using RealTree_ind_children.
  rewrite !iter_children_unfold. cbn zeta.
  rewrite filter_cons, filter_bind.
  destruct cs as [|kc cs].
  - by rewrite decide_True by done.
  - rewrite decide_False by done. rewrite decide_False by done.
    apply bind_ext_Forall. by rewrite sorted_Permutation.
Qed.

Lemma sorted_insert_Forall2 {V W} (R : string * V → string * W → Prop) x y l1 l2 :
  (∀ x y, R x y → x.1 = y.1) →
  R x y → Forall2 R l1 l2 →
  Forall2 R (sorted_insert x l1) (sorted_insert y l2).
Proof.
  intros HR Hxy Hl. induction Hl as [|x' y' l1 l2 Hxy' Hl IH]; simpl.
  - by repeat constructor.
  - rewrite <- (HR _ _ Hxy), <- (HR _ _ Hxy').
    destruct (String.leb x.1 x'.1); by repeat constructor.
Qed.

Lemma sorted_Forall2 {V W} (R : string * V → string * W → Prop) l1 l2 :
  (∀ x y, R x y → x.1 = y.1) →
  Forall2 R l1 l2 → Forall2 R (sorted l1) (sorted l2).
Proof.
  intros HR. induction 1; simpl; [constructor|].
  by apply sorted_insert_Forall2.
Qed.

Lemma Forall2_keys {V W} (R : string * V → string * W → Prop) l1 l2 :
  (∀ x y, R x y → x.1 = y.1) → Forall2 R l1 l2 → l1.*1 = l2.*1.
Proof.
  intros HR. induction 1 as [|x y l1 l2 Hxy _ IH]; [done|].
  by rewrite !fmap_cons, IH, (HR _ _ Hxy).
Qed.

(** Trees with the same contents are walked in the same order of account
    names, whatever the order of the children in the dictionaries. *)
Lemma iter_children_same_contents t1 :
  ∀ t2 leaf_only,
    unique_keys t1 → same_contents t1 t2 →
    tree_account <$> iter_children t1 leaf_only
    = tree_account <$> iter_children t2 leaf_only.
Proof.
  induction t1 as [a ps b cs1 IH] using RealTree_ind_children.
  intros t2 leaf_only Huniq Hsame.
  inversion Huniq as [???? Hnd Hcs]; subst.
  inversion Hsame as [????? cs2' Hperm Hall]; subst.
  set (R := λ x y : string * RealTree, x.1 = y.1 ∧ same_contents x.2 y.2) in *.
  assert (∀ x y, R x y → x.1 = y.1) as HR by by intros ?? [? _].
  assert (sorted cs2 = sorted cs2') as Hsorted.
  { symmetry. apply sorted_unique; [|done].
    by rewrite <- (Forall2_keys _ _ _ HR Hall). }
  assert (length cs2 = length cs1) as Hlen.
  { by rewrite Hperm, (Forall2_length _ _ _ Hall). }
  assert (tree_account <$> (sorted cs1 ≫= λ kc, iter_children kc.2 leaf_only)
          = tree_account <$> (sorted cs2 ≫= λ kc, iter_children kc.2 leaf_only))
    as Hsubs.
  { rewrite Hsorted.
    pose proof (sorted_Forall2 _ _ _ HR Hall) as Hall'.
    assert (Forall (λ kc : string * RealTree,
              ∀ t2 leaf_only, same_contents kc.2 t2 →
                tree_account <$> iter_children kc.2 leaf_only
                = tree_account <$> iter_children t2 leaf_only) (sorted cs1))
      as IH'.
    { rewrite sorted_Permutation.
      apply Forall_forall. intros kc Hkc t2 lo Hs.
      rewrite Forall_forall in IH, Hcs. apply IH; auto. }
    clear -Hall' IH'.
    induction Hall' as [|x y l1 l2 [_ Hxy] _ IHl]; [done|].
    apply Forall_cons in IH' as [Hx IH'].
    rewrite !bind_cons, !fmap_app, IHl by done. f_equal. by apply Hx. }
  rewrite !iter_children_unfold. cbn zeta. rewrite Hlen.
  destruct leaf_only; [case_decide|]; rewrite ?fmap_cons; simpl;
    by rewrite ?Hsubs.
Qed.

(** C6: [iter_children] without [leaf_only] yields the node it is given
    first and then what it yields for each child, the children taken in
    sorted key order; with [leaf_only] it yields the nodes without children,
    and only those, in the same order; and it yields the same account names
    in the same order for two trees with the same contents, in whatever
    order the children were put into the dictionaries. *)
Theorem iter_children_spec :
  (∀ a ps b items,
     iter_children (Node a ps b items) false
     = Node a ps b items :: (sorted items ≫= λ kc, iter_children kc.2 false) ∧
     sorted items ≡ₚ items ∧
     StronglySorted (λ x y, String.le x.1 y.1) (sorted items)) ∧
  (∀ t, iter_children t true = base.filter is_leaf (iter_children t false)) ∧
  (∀ t1 t2 leaf_only,
     unique_keys t1 → same_contents t1 t2 →
     tree_account <$> iter_children t1 leaf_only
     = tree_account <$> iter_children t2 leaf_only).
Proof.
  split_and!.
  - intros a ps b items. split_and!.
    + by rewrite iter_children_unfold.
    + apply sorted_Permutation.
    + apply sorted_Sorted.
  - apply iter_children_leaves.
  - intros. by apply iter_children_same_contents.
Qed.

(** Two accounts created by [get_or_create] in one order and in the
    other: the dictionaries of the two roots differ in the order of their
    items, the walks do not. *)
Lemma iter_children_spec_witness :
  ∃ h1 h2 t1 t2,
    realize_min_accounts [RealAccount_init EmptyString] 0 ["B"; "A"] = Ok h1 ∧
    realize_min_accounts [RealAccount_init EmptyString] 0 ["A"; "B"] = Ok h2 ∧
    snapshot 2 h1 0 = Some t1 ∧ snapshot 2 h2 0 = Some t2 ∧
    (tree_children t1).*1 = ["B"; "A"] ∧ (tree_children t2).*1 = ["A"; "B"] ∧
    tree_account <$> iter_children t1 false
    = tree_account <$> iter_children t2 false.
Proof.
  assert (∀ a, unique_keys (Node a [] ∅ [])) as Hleaf_keys
    by (intros; constructor; constructor).
  assert (∀ a, same_contents (Node a [] ∅ []) (Node a [] ∅ [])) as Hleaf_same
    by (intros; by apply (same_contents_node _ _ _ [] [] [])).
  eexists _, _, _, _.
  split_and!; [vm_compute; reflexivity..|].
  apply (proj2 (proj2 iter_children_spec)).
  - constructor.
    + apply (bool_decide_unpack _). by vm_compute.
    + repeat (constructor; [apply Hleaf_keys|]). constructor.
  - apply (same_contents_node _ _ _ _ _
             [("B", Node "B" [] ∅ []); ("A", Node "A" [] ∅ [])]).
    + apply Permutation_swap.
    + repeat (constructor; [split; [done|apply Hleaf_same]|]). constructor.
Defined.

(** ** [filter] *)

Lemma bind_Ok {A B} (x : A) (f : A → result B) : (Ok x ≫= f) = f x.
Proof. done. Qed.

Lemma filter_unfold a ps b items predicate :
  filter (Node a ps b items) predicate
  = real_copy ← filter_loop predicate items [];
    if decide (0 < length real_copy) then Ok (Some (Node a ps b real_copy))
    else if predicate (Node a ps b items) then Ok (Some (Node a ps b real_copy))
    else Ok None.
Proof.
  cbn [filter]. f_equal. generalize (@nil (string * RealTree)) as acc.
  induction items as [|[k c] items IH]; intros acc; [done|].
  cbn [filter_loop]. destruct (filter c predicate) as [[c'|]|]; simpl; [|apply IH|done].
  destruct (tree_setitem k c' acc); simpl; [apply IH|done].
Qed.

Lemma kept_cons predicate kc items :
  kept predicate (kc :: items)
  = match filter kc.2 predicate with
    | Ok (Some c) => (kc.1, c) :: kept predicate items
    | _ => kept predicate items
    end.
Proof.
  unfold kept. cbn [omap list_omap].
  by destruct (filter kc.2 predicate) as [[c|]|].
Qed.


(** The loop of [filter] raises nothing and keeps the copies of the
    children that are not dropped, in their order, when all goes well with
    the children. *)
Lemma filter_loop_kept predicate items :
  ∀ real_copy,
    Forall (λ kc : string * RealTree,
              ∃ r, filter kc.2 predicate = Ok r ∧
                   ∀ c, r = Some c → tree_account c = tree_account kc.2) items →
    Forall (λ kc : string * RealTree,
              kc.1 ≠ "" ∧ endswith (tree_account kc.2) kc.1 = true) items →
    NoDup (real_copy.*1 ++ items.*1) →
    filter_loop predicate items real_copy
    = Ok (real_copy ++ kept predicate items).
Proof.
  induction items as [|[k c] items IH]; intros acc Hrec Hkeys Hnd.
  - simpl. by rewrite app_nil_r.
  - apply Forall_cons in Hrec as [(r & Hr & Hacc) Hrec].
    apply Forall_cons in Hkeys as [[Hk He] Hkeys]. simpl in Hk, He, Hr, Hacc.
    rewrite fmap_cons in Hnd. cbn [fst] in Hnd.
    cbn [filter_loop]. rewrite kept_cons. cbn [fst snd]. rewrite Hr.
    destruct r as [c'|]; simpl.
    + unfold tree_setitem. rewrite decide_False by done.
      rewrite (Hacc c' eq_refl), He. simpl.
      rewrite dict_set_fresh.
      2:{ apply dict_get_None. apply NoDup_app in Hnd as (_ & Hnd & _).
          intros Hin. apply (Hnd _ Hin). apply elem_of_cons. by left. }
      rewrite IH; [|done..|].
      * by rewrite <- app_assoc.
      * by rewrite fmap_app, <- app_assoc.
    + apply IH; [done..|].
      apply NoDup_app in Hnd as (Hnd1 & Hnd2 & Hnd3).
      apply NoDup_cons in Hnd3 as [_ Hnd3].
      apply NoDup_app. split_and!; [done| |done].
      intros x Hx Hx'. apply (Hnd2 x Hx). apply elem_of_cons. by right.
Qed.

(** What [filter] returns for a node, from what it returns for the
    children. *)
Lemma filter_node a ps b items predicate :
  Forall (λ kc : string * RealTree,
            ∃ r, filter kc.2 predicate = Ok r ∧
                 ∀ c, r = Some c → tree_account c = tree_account kc.2) items →
  Forall (λ kc : string * RealTree,
            kc.1 ≠ "" ∧ endswith (tree_account kc.2) kc.1 = true) items →
  NoDup items.*1 →
  filter (Node a ps b items) predicate
  = if decide (kept predicate items ≠ [] ∨ predicate (Node a ps b items) = true)
    then Ok (Some (Node a ps b (kept predicate items)))
    else Ok None.
Proof.
  intros Hrec Hkeys Hnd.
  rewrite filter_unfold, filter_loop_kept by done.
  rewrite bind_Ok, app_nil_l.
  destruct (decide (kept predicate items ≠ [] ∨ _)) as [Hd|Hd].
  - destruct (decide (0 < length (kept predicate items))) as [|Hlen]; [done|].
    destruct Hd as [Hd| ->]; [|done].
    destruct (kept predicate items); [done|simpl in Hlen; lia].
  - destruct (decide (0 < length (kept predicate items))) as [Hlen|].
    + destruct Hd. left. intros Heq. rewrite Heq in Hlen. simpl in Hlen. lia.
    + destruct (predicate _) eqn:HP; [|done]. destruct Hd. by right.
Qed.

Lemma unique_keys_children a ps b items :
  unique_keys (Node a ps b items) →
  NoDup items.*1 ∧ ∀ k c, (k, c) ∈ items → unique_keys c.
Proof.
  inversion 1 as [???? Hnd Hcs]; subst. split; [done|].
  intros k c Hin. rewrite Forall_forall in Hcs. by apply (Hcs (k, c)).
Qed.

Lemma setitem_keys_children a ps b items :
  setitem_keys (Node a ps b items) →
  ∀ k c, (k, c) ∈ items →
    k ≠ "" ∧ endswith (tree_account c) k = true ∧ setitem_keys c.
Proof.
  inversion 1 as [???? Hcs]; subst.
  intros k c Hin. rewrite Forall_forall in Hcs. by apply (Hcs (k, c)).
Qed.

(** [filter] raises nothing on the tree of a node, returns a copy with the
    attributes of the node and the kept children, and returns a copy exactly
    when the node survives. *)
Lemma filter_total predicate t :
  unique_keys t → setitem_keys t →
  ∃ r, filter t predicate = Ok r ∧
       (is_Some r ↔ survives predicate t = true) ∧
       ∀ t', r = Some t' →
         same_attributes t' t ∧
         tree_children t' = kept predicate (tree_children t) ∧
         (is_leaf t' → predicate t = true ∧ (is_leaf t → t' = t)).
Proof.
  induction t as [a ps b items IH] using RealTree_ind_children.
  intros Huniq Hset.
  destruct (unique_keys_children _ _ _ _ Huniq) as [Hnd Hu].
  pose proof (setitem_keys_children _ _ _ _ Hset) as Hs.
  assert (Forall (λ kc : string * RealTree,
            ∃ r, filter kc.2 predicate = Ok r ∧
                 (is_Some r ↔ survives predicate kc.2 = true) ∧
                 ∀ c, r = Some c → tree_account c = tree_account kc.2) items)
    as Hrec.
  { apply Forall_forall. intros [k c] Hin. rewrite Forall_forall in IH.
    destruct (IH _ Hin) as (r & Hr & Hiff & Hc); [by eapply Hu|by eapply Hs|].
    exists r. split_and!; [done..|]. intros c' ->.
    by destruct (Hc c' eq_refl) as [[? _] _]. }
  rewrite filter_node; [| |apply Forall_forall; intros [k c] Hin;
                            by destruct (Hs _ _ Hin) as (? & ? & _)|done].
  2:{ eapply Forall_impl; [exact Hrec|]. intros kc (r & ? & _ & ?). by exists r. }
  assert (kept predicate items ≠ [] ↔
          existsb (λ kc, survives predicate kc.2) items = true) as Hkept.
  { clear -Hrec. induction Hrec as [|[k c] items (r & Hr & Hiff & _) _ IHr].
    - done.
    - rewrite kept_cons. simpl in *. rewrite Hr, orb_true_iff, <- IHr, <- Hiff.
      destruct r as [c'|].
      + split; [intros _; left; by eexists|done].
      + split; [intros ?; by right|intros [[? [=]]|?]; done]. }
  assert (survives predicate (Node a ps b items) = true ↔
          kept predicate items ≠ [] ∨ predicate (Node a ps b items) = true)
    as Hsurv.
  { cbn [survives]. rewrite orb_true_iff, <- Hkept. tauto. }
  case_decide as Hd.
  - eexists. split; [done|]. split.
    { split; [intros _; by apply Hsurv|by eexists]. }
    intros t' [= <-]. split_and!; [done..|].
    unfold is_leaf. simpl. intros Hleaf. split; [by destruct Hd|].
    by intros ->.
  - eexists. split; [done|]. split; [|done].
    split; [by intros [? [=]]|]. by intros ?%Hsurv.
Qed.







(** ** Inventories *)

Lemma lookup_add_position inv p l :
  add_position inv p !! l
  = if decide (l = lot p) then
      let n := (get_units inv l + units p)%Z in
      if decide (n = 0%Z) then None else Some n
    else inv !! l.
Proof.
  unfold add_position. cbn zeta.
  destruct (decide (l = lot p)) as [->|Hne].
  - destruct (decide (_ = 0%Z)); [apply lookup_delete_eq|apply lookup_insert_eq].
  - destruct (decide (_ = 0%Z)); [by apply lookup_delete_ne|by apply lookup_insert_ne].
Qed.

Lemma get_units_add_position inv p l :
  get_units (add_position inv p) l
  = (get_units inv l + if decide (l = lot p) then units p else 0)%Z.
Proof.
  unfold get_units at 1. rewrite lookup_add_position.
  destruct (decide (l = lot p)) as [->|Hne]; cbn zeta.
  - destruct (decide (_ = 0%Z)) as [Hz|]; simpl; [by rewrite Hz|done].
  - unfold get_units. lia.
Qed.

(** Modelled from the spec, the inventory does not depend on the order in
    which positions are added. *)
Lemma add_position_comm inv p q :
  add_position (add_position inv p) q = add_position (add_position inv q) p.
Proof.
  apply map_eq. intros l. rewrite !lookup_add_position. cbn zeta.
  rewrite !get_units_add_position.
  destruct (decide (l = lot q)) as [Hq|Hq], (decide (l = lot p)) as [Hp|Hp];
    repeat case_decide; try done; try lia; f_equal; lia.
Qed.

Lemma add_postings_app inv l1 l2 :
  add_postings inv (l1 ++ l2) = add_postings (add_postings inv l1) l2.
Proof. apply foldl_app. Qed.

Lemma add_postings_Permutation l1 l2 :
  l1 ≡ₚ l2 → ∀ inv, add_postings inv l1 = add_postings inv l2.
Proof.
  induction 1 as [|x l1 l2 _ IH|x y l|l1 l2 l3 _ IH1 _ IH2]; intros inv.
  - done.
  - apply IH.
  - unfold add_postings. simpl. by rewrite add_position_comm.
  - by rewrite IH1.
Qed.

Lemma compute_postings_balance_postings l :
  compute_postings_balance l = add_postings Inventory_new (postings_of l).
Proof.
  unfold compute_postings_balance, add_postings. generalize Inventory_new.
  induction l as [|[p|d] l IH]; intros inv; simpl; auto.
Qed.

Lemma postings_of_Permutation l1 l2 :
  l1 ≡ₚ l2 → postings_of l1 ≡ₚ postings_of l2.
Proof.
  induction 1 as [|x l1 l2 _ IH|x y l|l1 l2 l3 _ IH1 _ IH2].
  - done.
  - unfold postings_of in *. cbn [omap list_omap]. destruct x; [by constructor|done].
  - unfold postings_of. cbn [omap list_omap]. destruct x, y; try done.
    apply Permutation_swap.
  - by etrans.
Qed.

(** ** [iterate_with_balance] *)

Lemma running_app balance rows1 rows2 :
  running balance rows1 →
  running (add_postings balance (yielded_postings rows1)) rows2 →
  running balance (rows1 ++ rows2).
Proof.
  revert balance. induction rows1 as [|r rows1 IH]; intros balance; [done|].
  intros (Hb & Hc & Hr) H2. split_and!; [done..|].
  apply IH; [done|]. unfold yielded_postings in H2.
  rewrite fmap_cons in H2. cbn [concat] in H2.
  by rewrite add_postings_app, <- Hb in H2.
Qed.

(** The balance of the last tuple is the balance at the start with the
    positions of all the postings yielded added. *)
Lemma running_last balance rows r :
  running balance rows → last rows = Some r →
  row_balance r = add_postings balance (yielded_postings rows).
Proof.
  revert balance. induction rows as [|r' rows IH]; intros balance; [done|].
  intros (Hb & _ & Hr) Hlast. unfold yielded_postings.
  rewrite fmap_cons. cbn [concat]. rewrite add_postings_app, <- Hb.
  destruct rows as [|r'' rows].
  - simpl in *. by simplify_eq.
  - by apply IH.
Qed.

(** Flushing yields one tuple per buffered entry, with the buffered
    postings, and keeps the balance running. *)
Lemma flush_spec date_entries :
  ∀ balance,
    running balance (flush balance date_entries).1 ∧
    yielded_postings (flush balance date_entries).1 = pending date_entries ∧
    (flush balance date_entries).2
    = add_postings balance (pending date_entries) ∧
    length (flush balance date_entries).1 = length date_entries.
Proof.
  unfold yielded_postings, pending.
  induction date_entries as [|[e ps] des IH]; intros balance; [done|].
  cbn [flush]. specialize (IH (add_postings balance ps)).
  destruct (flush (add_postings balance ps) des) as [rows balance'].
  cbn [fst snd] in *. destruct IH as (Hr & Hy & Hb & Hl).
  rewrite !fmap_cons.
  cbn [concat running row_postings row_balance row_change length snd].
  split_and!; [done|done|done|by rewrite Hy|by rewrite Hb, add_postings_app|
               by rewrite Hl].
Qed.

Lemma index_key_lt {A B} (l : list A) (v : B) key cmp i :
  index_key l v key cmp = Some i → i < length l.
Proof.
  revert i. induction l as [|x l IH]; intros i; simpl; [done|].
  destruct (cmp (key x) v); [intros; simplify_eq; lia|].
  destruct (index_key l v key cmp) as [j|]; simpl; [|done].
  intros; simplify_eq. specialize (IH j eq_refl). lia.
Qed.

Lemma pending_alter date_entries i (p : Posting) :
  i < length date_entries →
  pending (alter (λ ep : Entry * list Posting, (ep.1, ep.2 ++ [p])) i date_entries)
  ≡ₚ pending date_entries ++ [p].
Proof.
  unfold pending. revert i.
  induction date_entries as [|[e ps] des IH]; intros i Hi; [simpl in Hi; lia|].
  destruct i as [|i].
  - change (concat ((ps ++ [p]) :: des.*2) ≡ₚ concat (ps :: des.*2) ++ [p]).
    cbn [concat]. rewrite <- !app_assoc.
    apply Permutation_app_head, Permutation_app_comm.
  - change (concat (ps :: (alter (λ ep : Entry * list Posting,
                                    (ep.1, ep.2 ++ [p])) i des).*2)
            ≡ₚ concat (ps :: des.*2) ++ [p]).
    cbn [concat]. rewrite IH by (simpl in Hi; lia). by rewrite app_assoc.
Qed.

Lemma pending_snoc date_entries e ps :
  pending (date_entries ++ [(e, ps)]) = pending date_entries ++ ps.
Proof.
  unfold pending. by rewrite fmap_app, concat_app; simpl; rewrite app_nil_r.
Qed.

(** One turn of the loop, when the date of the element is not before the
    date of the element in front of it. *)
Lemma loop_body_sorted st x :
  (∀ prev, st_prev_date st = Some prev → (prev ≤ entry_date x)%Z) →
  ∃ rows st',
    loop_body st x = (rows, Ok st') ∧
    st_prev_date st' = Some (entry_date x) ∧
    st_date_entries st' ≠ [] ∧
    running (st_balance st) rows ∧
    st_balance st' = add_postings (st_balance st) (yielded_postings rows) ∧
    yielded_postings rows ++ pending (st_date_entries st')
    ≡ₚ pending (st_date_entries st) ++ postings_of [x].
Proof.
  intros Hprev. destruct st as [balance prev_date date_entries].
  simpl in Hprev. unfold loop_body.
  set (pe := match x with
             | IsPosting p => (Some p, p_entry p)
             | IsEntry d => (None, entry_of d)
             end).
  assert (date pe.2 = entry_date x) as Hdate by by destruct x.
  assert (postings_of [x] = match pe.1 with Some p => [p] | None => [] end)
    as Hpost by by destruct x.
  destruct pe as [posting entry]. cbn [fst snd] in Hdate, Hpost.
  cbn [st_prev_date st_balance st_date_entries]. rewrite Hdate, Hpost. clear Hpost.
  destruct (decide (Some (entry_date x) ≠ prev_date)) as [Hne|Heq].
  - assert (match prev_date with
            | Some prev => bool_decide (entry_date x > prev)%Z
            | None => true
            end = true) as ->.
    { destruct prev_date as [prev|]; [|done]. apply bool_decide_eq_true.
      specialize (Hprev prev eq_refl). assert (entry_date x ≠ prev) by congruence.
      lia. }
    destruct (flush_spec date_entries balance) as (Hr & Hy & Hb & _).
    destruct (flush balance date_entries) as [rows balance'].
    cbn [fst snd] in *. cbn [st_prev_date st_balance st_date_entries index_key].
    eexists _, _. split; [done|]. cbn [st_prev_date st_balance st_date_entries].
    split_and!; [done| |done|by rewrite Hy|].
    + by destruct posting.
    + rewrite Hy. destruct posting; by rewrite !pending_snoc.
  - apply dec_stable in Heq. subst prev_date.
    cbn [st_prev_date st_balance st_date_entries].
    eexists _, _. split; [done|]. cbn [st_prev_date st_balance st_date_entries].
    split_and!; [done| |done|done|].
    + destruct posting as [p|]; [|by destruct date_entries].
      destruct (index_key date_entries entry fst is_) as [i|] eqn:Hi;
        [|by destruct date_entries].
      apply index_key_lt in Hi. intros Hnil.
      apply (f_equal length) in Hnil. rewrite length_alter in Hnil.
      simpl in Hnil. lia.
    + unfold yielded_postings. cbn [fmap list_fmap concat app].
      destruct posting as [p|]; [|by rewrite pending_snoc].
      destruct (index_key date_entries entry fst is_) as [i|] eqn:Hi;
        [|by rewrite pending_snoc].
      apply pending_alter. by eapply index_key_lt.
Qed.

(** One turn of the loop, when the date of the element is before the date
    of the element in front of it: nothing is yielded and the assertion
    fails. *)
Lemma loop_body_unsorted st x prev :
  st_prev_date st = Some prev → (entry_date x < prev)%Z →
  loop_body st x = ([], Raise AssertionError).
Proof.
  intros Hprev Hlt. unfold loop_body.
  set (pe := match x with
             | IsPosting p => (Some p, p_entry p)
             | IsEntry d => (None, entry_of d)
             end).
  assert (date pe.2 = entry_date x) as Hdate by by destruct x.
  destruct pe as [posting entry]. cbn [fst snd] in Hdate.
  rewrite Hdate, Hprev.
  rewrite decide_True by (intros [=]; lia).
  by rewrite bool_decide_eq_false_2 by lia.
Qed.

(** The only exception the loop raises is that of the assertion, and after
    a turn the previous date is that of the element. *)
Lemma loop_body_cases st x :
  (∃ rows, loop_body st x = (rows, Raise AssertionError) ∧
           ∃ prev, st_prev_date st = Some prev ∧ (entry_date x < prev)%Z) ∨
  (∃ rows st', loop_body st x = (rows, Ok st') ∧
               st_prev_date st' = Some (entry_date x) ∧
               ∀ prev, st_prev_date st = Some prev → (prev ≤ entry_date x)%Z).
Proof.
  destruct (st_prev_date st) as [prev|] eqn:Hprev.
  - destruct (decide (entry_date x < prev)%Z) as [Hlt|Hge].
    + left. exists []. split; [by eapply loop_body_unsorted|]. by exists prev.
    + right. destruct (loop_body_sorted st x) as (rows & st' & Hrun & Hp & _).
      { intros prev' Hp. rewrite Hprev in Hp. simplify_eq. lia. }
      exists rows, st'. split_and!; [done..|]. intros ? [= <-]. lia.
  - right. destruct (loop_body_sorted st x) as (rows & st' & Hrun & Hp & _).
    { intros prev' Hp. by rewrite Hprev in Hp. }
    exists rows, st'. by split_and!.
Qed.

Lemma loop_cons st x l :
  loop st (x :: l)
  = match loop_body st x with
    | (rows, Ok st') => let '(rows', r) := loop st' l in (rows ++ rows', r)
    | (rows, Raise e) => (rows, Raise e)
    end.
Proof. done. Qed.

Lemma loop_app l1 :
  ∀ st l2,
    loop st (l1 ++ l2)
    = match loop st l1 with
      | (rows, Ok st') => let '(rows', r) := loop st' l2 in (rows ++ rows', r)
      | (rows, Raise e) => (rows, Raise e)
      end.
Proof.
  induction l1 as [|x l1 IH]; intros st l2.
  - simpl. by destruct (loop st l2).
  - rewrite <- app_comm_cons, !loop_cons.
    destruct (loop_body st x) as [rows [st1|e]]; [|done].
    rewrite IH. destruct (loop st1 l1) as [rows1 [st2|e]]; [|done].
    destruct (loop st2 l2) as [rows2 r]. by rewrite app_assoc.
Qed.

(** The loop on a list in chronological order. *)
Lemma loop_sorted l :
  ∀ st,
    Sorted date_le l →
    (∀ prev x, st_prev_date st = Some prev → head l = Some x →
               (prev ≤ entry_date x)%Z) →
    ∃ rows st',
      loop st l = (rows, Ok st') ∧
      running (st_balance st) rows ∧
      st_balance st' = add_postings (st_balance st) (yielded_postings rows) ∧
      yielded_postings rows ++ pending (st_date_entries st')
      ≡ₚ pending (st_date_entries st) ++ postings_of l ∧
      (l ≠ [] → st_date_entries st' ≠ [] ∧
                st_prev_date st' = entry_date <$> last l).
Proof.
  induction l as [|x l IH]; intros st Hsorted Hhead.
  - exists [], st. split_and!; [done..| |done].
    unfold yielded_postings. simpl. by rewrite app_nil_r.
  - apply Sorted_inv in Hsorted as [Hsorted Hhd].
    destruct (loop_body_sorted st x) as (rows & st1 & Hrun & Hp & Hne & Hr & Hb & Hperm).
    { intros prev Hprev. by eapply Hhead. }
    destruct (IH st1 Hsorted) as (rows' & st2 & Hrun' & Hr' & Hb' & Hperm' & Hlast).
    { intros prev y. rewrite Hp. intros [= <-] Hy.
      destruct l as [|y' l]; simplify_eq/=. by apply HdRel_inv in Hhd. }
    exists (rows ++ rows'), st2. rewrite loop_cons, Hrun, Hrun'.
    split_and!; [done|..].
    + apply running_app; [done|]. by rewrite <- Hb.
    + unfold yielded_postings in *.
      by rewrite fmap_app, concat_app, add_postings_app, <- Hb.
    + unfold yielded_postings in *. rewrite fmap_app, concat_app, <- app_assoc.
      rewrite Hperm', app_assoc, Hperm, <- app_assoc.
      apply Permutation_app_head. unfold postings_of. cbn [omap list_omap].
      by destruct x.
    + intros _. destruct l as [|y l].
      * simpl in Hrun'. by simplify_eq.
      * destruct Hlast as [? ->]; [done|]. done.
Qed.

(** When the loop ends without exception, the list was in chronological
    order; the loop raises no other exception than that of the
    assertion. *)
Lemma loop_Ok_sorted l :
  ∀ st rows st',
    loop st l = (rows, Ok st') →
    Sorted date_le l ∧
    ∀ prev x, st_prev_date st = Some prev → head l = Some x →
              (prev ≤ entry_date x)%Z.
Proof.
  induction l as [|x l IH]; intros st rows st' Hrun.
  - split; [constructor|done].
  - rewrite loop_cons in Hrun.
    destruct (loop_body_cases st x)
      as [(rows1 & Hb & _)|(rows1 & st1 & Hb & Hp & Hprev)];
      rewrite Hb in Hrun; [done|].
    destruct (loop st1 l) as [rows2 [st2|e]] eqn:Hl; [|done].
    apply IH in Hl as [Hsorted Hhd]. split.
    + constructor; [done|]. destruct l as [|y l]; constructor.
      by apply (Hhd (entry_date x) y).
    + intros prev y Hpr [= <-]. auto.
Qed.

Lemma loop_Raise l :
  ∀ st rows e, loop st l = (rows, Raise e) → e = AssertionError.
Proof.
  induction l as [|x l IH]; intros st rows e Hrun; [done|].
  rewrite loop_cons in Hrun.
  destruct (loop_body_cases st x)
    as [(rows1 & Hb & _)|(rows1 & st1 & Hb & _)]; rewrite Hb in Hrun.
  - by simplify_eq.
  - destruct (loop st1 l) as [rows2 [st2|e']] eqn:Hl; [done|].
    simplify_eq. by eapply IH.
Qed.

Lemma iterate_with_balance_sorted l :
  Sorted date_le l →
  ∃ rows,
    iterate_with_balance l = (rows, None) ∧
    running Inventory_new rows ∧
    yielded_postings rows ≡ₚ postings_of l ∧
    (l ≠ [] → rows ≠ []).
Proof.
  intros Hsorted. unfold iterate_with_balance.
  destruct (loop_sorted l (mkState Inventory_new None []) Hsorted)
    as (rows & st & Hrun & Hr & Hb & Hperm & Hlast); [done|].
  rewrite Hrun. simpl in Hr, Hb, Hperm.
  destruct (flush_spec (st_date_entries st) (st_balance st))
    as (Hfr & Hfy & _ & Hfl).
  eexists. split; [done|]. split_and!.
  - apply running_app; [done|]. by rewrite <- Hb.
  - unfold yielded_postings in *. by rewrite fmap_app, concat_app, Hfy.
  - intros Hl. destruct (Hlast Hl) as [Hne _].
    intros [_ Hnil]%app_eq_nil. rewrite Hnil in Hfl.
    by destruct (st_date_entries st).
Qed.

(** C2: for a list in chronological order the generator ends without
    exception; the balance of each tuple is the balance of the tuple before
    it with the positions of the postings of the tuple added, and the
    postings of all tuples together are the postings of the input, each as
    often as it stands there, so that each position is added once, also when
    several postings of one transaction stand on one date and are put into
    one tuple; the balance of the last tuple is the inventory that adding
    the positions of all postings of the input gives, in the order of the
    input or in any other order. *)
Theorem iterate_with_balance_total (l : list PostingOrEntry)
    (Hsorted : Sorted date_le l) :
  ∃ rows,
    iterate_with_balance l = (rows, None) ∧
    running Inventory_new rows ∧
    yielded_postings rows ≡ₚ postings_of l ∧
    (l ≠ [] →
     ∃ r, last rows = Some r ∧
          row_balance r = compute_postings_balance l ∧
          ∀ l', l' ≡ₚ l → row_balance r = compute_postings_balance l').
Proof.
  destruct (iterate_with_balance_sorted l Hsorted)
    as (rows & Hrun & Hr & Hperm & Hne).
  exists rows. split_and!; [done..|]. intros Hl.
  destruct (last rows) as [r|] eqn:Hlast.
  2:{ apply last_None in Hlast. by destruct (Hne Hl). }
  exists r. split; [done|].
  assert (∀ l', l' ≡ₚ l → row_balance r = compute_postings_balance l') as Hany.
  { intros l' Hl'. rewrite (running_last _ _ _ Hr Hlast).
    rewrite compute_postings_balance_postings.
    apply add_postings_Permutation. rewrite Hperm.
    symmetry. by apply postings_of_Permutation. }
  split; [by apply Hany|done].
Qed.

Lemma iterate_with_balance_total_witness :
  let e1 := mkEntry 1 20140222 in
  let e2 := mkEntry 2 20140222 in
  let p n e := IsPosting (mkPosting e "Assets:Checking" (simple_position n "USD")) in
  ∃ rows r,
    iterate_with_balance [p 1%Z e1; p 2%Z e2; p 3%Z e1] = (rows, None) ∧
    last rows = Some r ∧
    row_balance r !! simple_lot "USD" = Some 6%Z.
Proof.
  intros e1 e2 p.
  destruct (iterate_with_balance_total [p 1%Z e1; p 2%Z e2; p 3%Z e1])
    as (rows & Hrun & _ & _ & Hlast).
  - repeat constructor; unfold date_le; simpl; lia.
  - destruct Hlast as (r & Hr & Hb & _); [done|].
    exists rows, r. split_and!; [done..|]. rewrite Hb. vm_compute. reflexivity.
Defined.

(** C5: when an element of the input has a date before the date of an
    element in front of it, the generator ends with the exception of the
    assertion; for two such elements alone it yields nothing first, and in
    general, when the element follows a list in chronological order, it
    yields only tuples that it also yields for that list alone.  Input in
    chronological order, in which dates may repeat, raises nothing, and
    only such input. *)
Theorem iterate_with_balance_order :
  (∀ x y, (entry_date y < entry_date x)%Z →
     iterate_with_balance [x; y] = ([], Some AssertionError)) ∧
  (∀ l i j x y,
     i < j → l !! i = Some x → l !! j = Some y →
     (entry_date y < entry_date x)%Z →
     (iterate_with_balance l).2 = Some AssertionError) ∧
  (∀ l1 x y l2,
     Sorted date_le (l1 ++ [x]) → (entry_date y < entry_date x)%Z →
     (iterate_with_balance (l1 ++ x :: y :: l2)).2 = Some AssertionError ∧
     (iterate_with_balance (l1 ++ x :: y :: l2)).1
       `prefix_of` (iterate_with_balance (l1 ++ [x])).1) ∧
  (∀ l, (iterate_with_balance l).2 = None ↔ Sorted date_le l) ∧
  (∀ x y, entry_date x = entry_date y → (iterate_with_balance [x; y]).2 = None).
Proof.
  assert (∀ l, Sorted date_le l → (iterate_with_balance l).2 = None) as Hsorted.
  { intros l Hl. destruct (iterate_with_balance_sorted l Hl) as (rows & -> & _).
    done. }
  assert (∀ l, (iterate_with_balance l).2 = None → Sorted date_le l) as Hnone.
  { intros l. unfold iterate_with_balance.
    destruct (loop _ l) as [rows [st|e]] eqn:Hrun; [|done].
    intros _. by apply loop_Ok_sorted in Hrun as [? _]. }
  assert (∀ l, (iterate_with_balance l).2 = None ∨
               (iterate_with_balance l).2 = Some AssertionError) as Hcases.
  { intros l. unfold iterate_with_balance.
    destruct (loop _ l) as [rows [st|e]] eqn:Hrun; [by left|right].
    apply loop_Raise in Hrun as ->. done. }
  assert (∀ l1 x y l2,
     Sorted date_le (l1 ++ [x]) → (entry_date y < entry_date x)%Z →
     ∃ rows st, loop (mkState Inventory_new None []) (l1 ++ [x]) = (rows, Ok st) ∧
       loop (mkState Inventory_new None []) (l1 ++ x :: y :: l2)
       = (rows, Raise AssertionError)) as Hprefix.
  { intros l1 x y l2 Hl Hlt.
    destruct (loop_sorted _ (mkState Inventory_new None []) Hl)
      as (rows & st & Hrun & _ & _ & _ & Hlast); [done|].
    destruct Hlast as [_ Hprev]; [by destruct l1|].
    rewrite last_snoc in Hprev. simpl in Hprev.
    exists rows, st. split; [done|].
    rewrite (cons_middle x), app_assoc, loop_app, Hrun, loop_cons.
    rewrite (loop_body_unsorted _ _ _ Hprev Hlt). by rewrite app_nil_r. }
  split_and!.
  - intros x y Hlt. destruct (Hprefix [] x y []) as (rows & st & Hx & Hxy);
      [repeat constructor|done|].
    unfold iterate_with_balance. simpl app in *. rewrite Hxy.
    rewrite loop_cons in Hx. simpl in Hx.
    destruct (loop_body_sorted (mkState Inventory_new None []) x)
      as (rows' & st' & Hb & _); [done|].
    unfold loop_body in Hb, Hx. simpl in Hb, Hx.
    by destruct x; simplify_eq.
  - intros l i j x y Hij Hx Hy Hlt.
    destruct (Hcases l) as [Hn|?]; [|done].
    apply Hnone in Hn. apply Sorted_StronglySorted in Hn.
    2:{ intros a b c. unfold date_le. lia. }
    apply lookup_lt_Some in Hy as Hj.
    rewrite <- (take_drop_middle l i x Hx) in Hn, Hy.
    apply StronglySorted_app in Hn as (_ & _ & Hn).
    apply StronglySorted_cons in Hn as [Hall _].
    assert (length (take i l) = i) as Hlen.
    { rewrite length_take. apply lookup_lt_Some in Hx. lia. }
    rewrite lookup_app_r, Hlen in Hy by lia.
    destruct (j - i) as [|k] eqn:Hk; [lia|]. simpl in Hy.
    rewrite Forall_forall in Hall.
    assert (date_le x y) as Hle.
    { apply Hall. by eapply list_elem_of_lookup_2. }
    unfold date_le in Hle. lia.
  - intros l1 x y l2 Hl Hlt.
    destruct (Hprefix l1 x y l2 Hl Hlt) as (rows & st & Hrun1 & Hrun2).
    unfold iterate_with_balance. rewrite Hrun1, Hrun2. simpl.
    split; [done|]. by eexists.
  - intros l. split; auto.
  - intros x y Heq. apply Hsorted. repeat constructor. unfold date_le. lia.
Qed.

Lemma iterate_with_balance_order_witness :
  let p n d := IsPosting (mkPosting (mkEntry n d) "Assets:Checking"
                                    (simple_position 1 "USD")) in
  iterate_with_balance [p 1 20140222%Z; p 2 20140221%Z]
  = ([], Some AssertionError).
Proof.
  intros p. apply (proj1 iterate_with_balance_order). simpl. lia.
Defined.

(** * Further properties of the module *)

(** ** [get_or_create], [get] and [contains] *)

Lemma get_or_create_loop_new components :
  ∀ h ra path path_of h' a,
    labelled h path_of → ra < length h → path_of ra = path →
    get_or_create_loop h ra path components = Ok (h', a) →
    get_loop h ra components None = None →
    length h ≤ a ∧
    deref h' a = RealAccount_init (join (path ++ components)).
Proof.
  induction components as [|c rest IH];
    intros h ra path path_of h' a Hl Hra Hpath Hrun Hnone; [done|].
  rewrite get_loop_None_cons in Hnone.
  rewrite (cons_middle c), app_assoc.
  destruct (dict_get c (children (deref h ra))) as [rc|] eqn:Hget.
  - rewrite (get_or_create_loop_found _ _ _ _ _ rc) in Hrun by done.
    destruct (Hl _ _ _ Hget) as (Hrc & Hp & _).
    eapply IH; [done..| |done|done]. by rewrite Hp, Hpath.
  - destruct (decide (c = "")) as [->|Hc].
    { by rewrite get_or_create_loop_empty_key in Hrun. }
    rewrite get_or_create_loop_created in Hrun by done.
    pose proof (labelled_created _ _ _ _ c Hl Hra Hpath Hget) as Hl1.
    destruct rest as [|c' rest].
    + simpl in Hrun. simplify_eq. split; [done|].
      rewrite app_nil_r. by apply deref_created_new.
    + eapply IH in Hrun as [Hlen Hd]; [|done|..].
      * split; [|done]. rewrite length_created in Hlen. lia.
      * rewrite length_created. lia.
      * by rewrite fn_lookup_insert.
      * rewrite get_loop_None_cons, deref_created_new by done. done.
Qed.

(** What was put in by [get_or_create] is found by [get] and [contains];
    when the account was not there before, its node is a new one, without
    postings, balance or children. *)
Theorem get_or_create_get (h : store) (root : addr) (account_name : string)
    (Htree : is_tree h root) (Hname : well_formed account_name) :
  ∃ h' a,
    get_or_create h root account_name = Ok (h', a) ∧
    get h' root account_name None = Some a ∧
    contains h' root account_name = true ∧
    (contains h root account_name = false →
     length h ≤ a ∧ deref h' a = RealAccount_init account_name).
Proof.
  destruct (get_or_create_loop_ok _ Hname h root []) as (h' & a & Hrun).
  destruct (is_tree_get_or_create _ _ _ _ _ Htree Hrun) as (_ & _ & Hget & _).
  exists h', a. split_and!; [done..| |].
  - unfold contains. rewrite Hget. by apply bool_decide_eq_true.
  - unfold contains. intros Hc%bool_decide_eq_false.
    destruct Htree as [Hroot (pf & Hpf & Hl)].
    destruct (get_or_create_loop_new _ _ _ _ _ _ _ Hl Hroot Hpf Hrun) as [? Hd].
    { unfold get in Hc. destruct (get_loop _ _ _ _); [|done].
      destruct Hc. by eexists. }
    split; [done|]. by rewrite Hd, app_nil_l, join_split.
Qed.

Lemma get_or_create_get_witness :
  ∃ h' a,
    get_or_create [RealAccount_init EmptyString] 0 "Assets:Checking" = Ok (h', a) ∧
    get h' 0 "Assets:Checking" None = Some a ∧
    deref h' a = RealAccount_init "Assets:Checking".
Proof.
  destruct (get_or_create_get [RealAccount_init EmptyString] 0 "Assets:Checking")
    as (h' & a & Hrun & Hget & _ & Hnew).
  - apply is_tree_new.
  - apply (bool_decide_unpack _). by vm_compute.
  - exists h', a. split_and!; [done..|]. by apply Hnew.
Defined.

(** [get_or_create] only adds to the store: the accounts found before are
    found after, at the same nodes, whichever node the search starts from;
    no posting list, balance or account name of a node changes, and no item
    of a dictionary is removed or replaced. *)
Theorem get_or_create_preserves (h h' : store) (root a : addr)
    (account_name : string)
    (Hrun : get_or_create h root account_name = Ok (h', a)) :
  length h ≤ length h' ∧
  (∀ r name b, get h r name None = Some b → get h' r name None = Some b) ∧
  (∀ r name, contains h r name = true → contains h' r name = true) ∧
  (∀ b k c, dict_get k (children (deref h b)) = Some c →
            dict_get k (children (deref h' b)) = Some c) ∧
  (∀ b, postings (deref h' b) = postings (deref h b) ∧
        balance (deref h' b) = balance (deref h b)) ∧
  (∀ b, b < length h → account (deref h' b) = account (deref h b)).
Proof.
  destruct (get_or_create_loop_frame _ _ _ _ _ _ Hrun) as (Hlen & Hmono & Hp & Hb & Ha).
  split_and!; [done| | |done|by split|done].
  - intros r name b. by apply get_loop_mono.
  - intros r name. unfold contains. rewrite !bool_decide_eq_true.
    intros [b Hb']. exists b. by apply (get_loop_mono _ _ _ Hmono).
Qed.

Lemma get_or_create_preserves_witness :
  let h := [with_child (RealAccount_init EmptyString) "Assets" 1;
            RealAccount_init "Assets"] in
  ∃ h' a, get_or_create h 0 "Income" = Ok (h', a) ∧
          get h' 0 "Assets" None = Some 1.
Proof.
  intros h.
  assert (∃ h' a, get_or_create h 0 "Income" = Ok (h', a)) as (h' & a & Hrun)
    by (by eexists _, _).
  exists h', a. split; [done|].
  by apply (proj1 (proj2 (get_or_create_preserves h h' 0 a "Income" Hrun))).
Defined.

Lemma get_or_create_loop_ill_formed components :
  ¬ Forall (λ c, c ≠ EmptyString) components →
  ∀ h ra path,
    no_empty_key h → get_or_create_loop h ra path components = Raise KeyError.
Proof.
  induction components as [|c rest IH]; intros Hbad h ra path Hkeys.
  - destruct Hbad. constructor.
  - destruct (decide (c = "")) as [->|Hc].
    { by apply get_or_create_loop_empty_key. }
    assert (¬ Forall (λ c, c ≠ EmptyString) rest) as Hrest.
    { intros ?. apply Hbad. by constructor. }
    destruct (dict_get c (children (deref h ra))) as [rc|] eqn:Hget.
    + rewrite (get_or_create_loop_found _ _ _ _ _ rc) by done. by apply IH.
    + rewrite get_or_create_loop_created by done.
      apply IH; [done|]. by apply no_empty_key_created.
Qed.

(** On a store built through [__setitem__], [get_or_create] returns a node
    exactly when every component of the account name is non-empty;
    otherwise the call ends in the [KeyError] of [__setitem__], as for the
    empty name or a name with two separators in a row.  It raises no other
    exception. *)
Theorem get_or_create_raises (h : store) (root : addr) (account_name : string)
    (Hkeys : no_empty_key h) :
  ((∃ h' a, get_or_create h root account_name = Ok (h', a)) ↔
   well_formed account_name) ∧
  (get_or_create h root account_name = Raise KeyError ↔
   ¬ well_formed account_name) ∧
  (∀ e, get_or_create h root account_name = Raise e → e = KeyError).
Proof.
  destruct (decide (well_formed account_name)) as [Hwf|Hbad].
  - destruct (get_or_create_loop_ok _ Hwf h root []) as (h' & a & Hrun).
    unfold get_or_create. rewrite Hrun. split_and!.
    + split; [done|]. intros _. by eexists _, _.
    + by split.
    + by intros e.
  - pose proof (get_or_create_loop_ill_formed _ Hbad h root [] Hkeys) as Hrun.
    unfold get_or_create. rewrite Hrun. split_and!.
    + split; [by intros (? & ? & ?)|done].
    + by split.
    + intros e. by intros [= <-].
Qed.

Lemma get_or_create_raises_witness :
  get_or_create [RealAccount_init EmptyString] 0 "Assets::Checking" = Raise KeyError ∧
  get_or_create [RealAccount_init EmptyString] 0 EmptyString = Raise KeyError.
Proof.
  assert (no_empty_key [RealAccount_init EmptyString]) as Hkeys.
  { intros [|b]; [done|]. by rewrite deref_dangling by (simpl; lia). }
  split.
  - apply (get_or_create_raises _ 0 "Assets::Checking" Hkeys).
    apply (bool_decide_unpack _). by vm_compute.
  - apply (get_or_create_raises _ 0 EmptyString Hkeys).
    apply (bool_decide_unpack _). by vm_compute.
Defined.

(** ** [get] along a joined name *)

Lemma split_app_sep s1 s2 :
  split (s1 +:+ String sep s2) = split s1 ++ split s2.
Proof.
  induction s1 as [|c s1 IH].
  - done.
  - change (String c s1 +:+ String sep s2) with (String c (s1 +:+ String sep s2)).
    cbn [split]. rewrite IH. destruct (Ascii.eqb c sep); [done|].
    destruct (split s1) as [|x l] eqn:Hs; [by destruct (split_not_nil s1)|done].
Qed.

Lemma get_loop_app h q1 :
  ∀ ra q2,
    get_loop h ra (q1 ++ q2) None
    = a ← get_loop h ra q1 None; get_loop h a q2 None.
Proof.
  induction q1 as [|c q1 IH]; intros ra q2; [done|].
  rewrite <- app_comm_cons, !get_loop_None_cons.
  destruct (dict_get c (children (deref h ra))) as [rc|]; simpl; [apply IH|done].
Qed.

(** Looking up a name made of two names joined by the separator is looking
    up the first and, from the node found, the second; so a sub-account is
    only found below an account that is found. *)
Theorem get_joined (h : store) (real_account : addr) (name1 name2 : string) :
  get h real_account (name1 +:+ String sep name2) None
  = a ← get h real_account name1 None; get h a name2 None.
Proof. unfold get. rewrite split_app_sep. apply get_loop_app. Qed.

(** ** The accounts of a realization *)

Lemma no_empty_key_set_postings h a l b :
  no_empty_key h → no_empty_key (set_postings h a l b).
Proof. intros Hh x. by rewrite children_set_postings. Qed.

Lemma realize_postings_raises root items :
  ∀ h,
    no_empty_key h →
    if decide (Forall well_formed items.*1)
    then ∃ h', realize_postings h root items = Ok h' ∧ no_empty_key h'
    else realize_postings h root items = Raise KeyError.
Proof.
  induction items as [|[A l] items IH]; intros h Hkeys.
  - rewrite decide_True by constructor. by exists h.
  - rewrite fmap_cons. cbn [fst realize_postings].
    destruct (decide (well_formed A)) as [HA|HA].
    + destruct (get_or_create_loop_ok _ HA h root []) as (h1 & a & Hrun).
      fold (get_or_create h root A) in Hrun. rewrite Hrun. simpl.
      apply get_or_create_loop_no_empty_key in Hrun; [|done].
      specialize (IH (set_postings h1 a l (compute_postings_balance l))
                     (no_empty_key_set_postings _ _ _ _ Hrun)).
      destruct (decide (Forall well_formed items.*1)) as [Hwf|Hbad].
      * by rewrite decide_True by by constructor.
      * rewrite decide_False; [done|]. by intros [_ ?]%Forall_cons.
    + rewrite decide_False by by intros [? _]%Forall_cons.
      unfold get_or_create.
      by rewrite (get_or_create_loop_ill_formed _ HA h root [] Hkeys).
Qed.

Lemma realize_min_accounts_raises root min_accounts :
  ∀ h,
    no_empty_key h →
    if decide (Forall well_formed min_accounts)
    then ∃ h', realize_min_accounts h root min_accounts = Ok h'
    else realize_min_accounts h root min_accounts = Raise KeyError.
Proof.
  induction min_accounts as [|A rest IH]; intros h Hkeys.
  - rewrite decide_True by constructor. by exists h.
  - cbn [realize_min_accounts].
    destruct (decide (well_formed A)) as [HA|HA].
    + destruct (get_or_create_loop_ok _ HA h root []) as (h1 & a & Hrun).
      fold (get_or_create h root A) in Hrun. rewrite Hrun. simpl.
      apply get_or_create_loop_no_empty_key in Hrun; [|done].
      specialize (IH h1 Hrun).
      destruct (decide (Forall well_formed rest)) as [Hwf|Hbad].
      * by rewrite decide_True by by constructor.
      * rewrite decide_False; [done|]. by intros [_ ?]%Forall_cons.
    + rewrite decide_False by by intros [? _]%Forall_cons.
      unfold get_or_create.
      by rewrite (get_or_create_loop_ill_formed _ HA h root [] Hkeys).
Qed.

(** [realize] returns a tree exactly when the account names of the grouped
    directives and of [min_accounts] have no empty component; otherwise it
    ends in the [KeyError] of [__setitem__], and in no other exception. *)
Theorem realize_raises (entries : list Directive)
    (min_accounts : option (list string)) :
  ((∃ h root, realize entries min_accounts = Ok (h, root)) ↔
   Forall well_formed (group_by_account entries).*1 ∧
   Forall well_formed (default [] min_accounts)) ∧
  (∀ e, realize entries min_accounts = Raise e → e = KeyError).
Proof.
  assert (no_empty_key [RealAccount_init EmptyString]) as Hkeys.
  { intros [|b]; [done|]. by rewrite deref_dangling by (simpl; lia). }
  pose proof (realize_postings_raises 0 (group_by_account entries) _ Hkeys) as H1.
  unfold realize. cbn [RealAccount_new app length].
  destruct (decide (Forall well_formed (group_by_account entries).*1)) as [Hwf|Hbad].
  - destruct H1 as (h1 & -> & Hkeys1). rewrite bind_Ok.
    destruct min_accounts as [l|]; cbn [default].
    + pose proof (realize_min_accounts_raises 0 l _ Hkeys1) as H2.
      destruct (decide (Forall well_formed l)) as [Hwf'|Hbad'].
      * destruct H2 as (h2 & ->). rewrite bind_Ok.
        split; [|done]. split; [done|]. intros _. by eexists _, _.
      * rewrite H2. split; [|by intros e [= <-]].
        split; [by intros (? & ? & ?)|]. by intros [_ ?].
    + rewrite bind_Ok. split; [|done].
      split; [by split|]. intros _. by eexists _, _.
  - rewrite H1. split; [|by intros e [= <-]].
    split; [by intros (? & ? & ?)|]. by intros [? _].
Qed.

Lemma realize_raises_witness :
  realize [Open (mkEntry 1 20140101) "Assets:"] None = Raise KeyError.
Proof.
  destruct (realize [Open (mkEntry 1 20140101) "Assets:"] None) as [[h r]|e] eqn:Hrun.
  - assert (∃ h root, realize [Open (mkEntry 1 20140101) "Assets:"] None = Ok (h, root))
      as Hex by (by eexists _, _).
    apply (proj1 (realize_raises _ None)) in Hex as [Hwf _].
    apply Forall_cons in Hwf as [Hwf _]. exfalso. revert Hwf.
    apply (bool_decide_unpack _). by vm_compute.
  - by rewrite (proj2 (realize_raises _ None) e Hrun).
Defined.

(** The edges to nodes that were there before [get_or_create] were there
    before, and the new nodes stand on the path that was asked for. *)
Lemma get_or_create_loop_paths components :
  ∀ h ra path path_of h' a,
    labelled h path_of → ra < length h → path_of ra = path →
    get_or_create_loop h ra path components = Ok (h', a) →
    (∀ b k c, dict_get k (children (deref h' b)) = Some c → c < length h →
              dict_get k (children (deref h b)) = Some c) ∧
    ∃ path_of',
      labelled h' path_of' ∧
      (∀ b, b < length h → path_of' b = path_of b) ∧
      (∀ b, length h ≤ b → b < length h' →
            ∃ q, q ≠ [] ∧ q `prefix_of` components ∧ path_of' b = path ++ q).
Proof.
  induction components as [|c rest IH];
    intros h ra path path_of h' a Hl Hra Hpath Hrun.
  - simpl in Hrun. simplify_eq. split; [done|].
    exists path_of. split_and!; [done..|]. intros; lia.
  - destruct (dict_get c (children (deref h ra))) as [rc|] eqn:Hget.
    + rewrite (get_or_create_loop_found _ _ _ _ _ rc) in Hrun by done.
      destruct (Hl _ _ _ Hget) as (Hrc & Hp & _).
      eapply IH in Hrun as (Hold & pf' & ? & ? & Hnew); [|done|done|].
      2:{ by rewrite Hp, Hpath. }
      split; [done|]. exists pf'. split_and!; [done..|].
      intros b Hb Hb'. destruct (Hnew b Hb Hb') as (q & Hq & Hpre & ->).
      exists (c :: q). split_and!; [done|by apply prefix_cons|].
      by rewrite <- app_assoc.
    + destruct (decide (c = "")) as [->|Hc].
      { by rewrite get_or_create_loop_empty_key in Hrun. }
      rewrite get_or_create_loop_created in Hrun by done.
      pose proof (labelled_created _ _ _ _ c Hl Hra Hpath Hget) as Hl1.
      eapply IH in Hrun as (Hold & pf' & ? & Hsame & Hnew); [|done|..].
      2:{ rewrite length_created. lia. }
      2:{ by rewrite fn_lookup_insert. }
      rewrite length_created in *. split.
      * intros b k x Hk Hx. apply Hold in Hk; [|lia].
        destruct (created_edge _ _ _ _ _ _ _ Hra Hk) as [(_ & _ & ->)|[_ ?]];
          [lia|done].
      * exists pf'. split_and!; [done| |].
        -- intros b Hb. rewrite Hsame by lia.
           by rewrite fn_lookup_insert_ne by lia.
        -- intros b Hb Hb'. destruct (decide (b = length h)) as [->|?].
           ++ exists [c]. split_and!; [done|by apply prefix_cons, prefix_nil|].
              rewrite Hsame by lia. by rewrite fn_lookup_insert.
           ++ destruct (Hnew b) as (q & Hq & Hpre & ->); [lia..|].
              exists (c :: q). split_and!; [done|by apply prefix_cons|].
              by rewrite <- app_assoc.
Qed.

(** A path to a node that was there before goes through nodes that were
    there before. *)
Lemma get_loop_old h h' q :
  (∀ b k c, dict_get k (children (deref h' b)) = Some c → c < length h →
            dict_get k (children (deref h b)) = Some c) →
  ∀ r x, get_loop h' r q None = Some x → x < length h →
         get_loop h r q None = Some x.
Proof.
  intros Hold. induction q as [|k q IH]; intros r x Hget Hx; [done|].
  rewrite get_loop_None_cons in *.
  destruct (dict_get k (children (deref h' r))) as [c|] eqn:Hk; [|done].
  simpl in Hget. pose proof (IH _ _ Hget Hx) as Hwalk.
  assert (c < length h) as Hc.
  { destruct (decide (c < length h)); [done|]. destruct q as [|k' q].
    - simpl in Hwalk. by simplify_eq.
    - rewrite get_loop_None_cons, deref_dangling in Hwalk by lia. done. }
  by rewrite (Hold _ _ _ Hk Hc).
Qed.

(** The accounts of the tree after [get_or_create] are those of the tree
    before and those on the path of the account name. *)
Lemma get_or_create_walks h root account_name h' a :
  is_tree h root →
  get_or_create h root account_name = Ok (h', a) →
  ∀ q x, get_loop h' root q None = Some x →
         get_loop h root q None = Some x ∨
         (q ≠ [] ∧ q `prefix_of` split account_name).
Proof.
  intros [Hroot (pf & Hpf & Hl)] Hrun q x Hget.
  destruct (get_or_create_loop_paths _ _ _ _ _ _ _ Hl Hroot Hpf Hrun)
    as (Hold & pf' & Hl' & Hsame & Hnew).
  destruct (decide (x < length h)) as [Hx|Hx].
  - left. by eapply get_loop_old.
  - right. destruct (Hnew x) as (q0 & Hq0 & Hpre & Hpx); [lia| |].
    { destruct (get_or_create_loop_frame _ _ _ _ _ _ Hrun) as (Hlen & _).
      eapply labelled_get_loop_valid; [done| |done]. lia. }
    rewrite (labelled_get_loop _ _ _ Hl' _ _ Hget), Hsame, Hpf in Hpx by done.
    simpl in Hpx. by subst.
Qed.

Lemma realize_postings_is_tree root items :
  ∀ h h', is_tree h root → realize_postings h root items = Ok h' →
          is_tree h' root.
Proof.
  induction items as [|[A l] items IH]; intros h h' Htree Hrun.
  - simpl in Hrun. by simplify_eq.
  - cbn [realize_postings] in Hrun.
    destruct (get_or_create h root A) as [[h1 a]|] eqn:Hgoc; [|done].
    simpl in Hrun. eapply IH; [|done].
    apply is_tree_set_postings.
    by destruct (is_tree_get_or_create _ _ _ _ _ Htree Hgoc).
Qed.

Lemma realize_postings_walks root items :
  ∀ h h',
    is_tree h root → realize_postings h root items = Ok h' →
    (∀ r q x, get_loop h r q None = Some x → get_loop h' r q None = Some x) ∧
    (∀ A, A ∈ items.*1 → is_Some (get h' root A None)) ∧
    (∀ q x, get_loop h' root q None = Some x →
            get_loop h root q None = Some x ∨
            ∃ A, A ∈ items.*1 ∧ q ≠ [] ∧ q `prefix_of` split A) ∧
    (∀ b, (postings (deref h' b) = postings (deref h b) ∧
           balance (deref h' b) = balance (deref h b)) ∨
          ∃ A, A ∈ items.*1 ∧ get h' root A None = Some b).
Proof.
  induction items as [|[A l] items IH]; intros h h' Htree Hrun.
  - simpl in Hrun. simplify_eq. split_and!; auto.
    by intros A ?%elem_of_nil.
  - cbn [realize_postings] in Hrun.
    destruct (get_or_create h root A) as [[h1 a]|] eqn:Hgoc; [|done].
    simpl in Hrun.
    destruct (is_tree_get_or_create _ _ _ _ _ Htree Hgoc) as (Htree1 & _ & Hget1 & _).
    destruct (get_or_create_loop_frame _ _ _ _ _ _ Hgoc) as (_ & Hmono & Hp1 & Hb1 & _).
    set (h2 := set_postings h1 a l (compute_postings_balance l)) in *.
    assert (is_tree h2 root) as Htree2 by by apply is_tree_set_postings.
    destruct (IH h2 h' Htree2 Hrun) as (Hmono' & Hin & Hwalks & Hattrs).
    rewrite fmap_cons. cbn [fst]. split_and!.
    + intros r q x Hq. apply Hmono'. unfold h2.
      rewrite get_loop_set_postings. by apply (get_loop_mono _ _ _ Hmono).
    + intros B [->|HB]%elem_of_cons; [|auto].
      exists a. apply Hmono'. unfold h2. by rewrite get_loop_set_postings.
    + intros q x Hq. destruct (Hwalks q x Hq) as [Hq2|(B & HB & ?)].
      * unfold h2 in Hq2. rewrite get_loop_set_postings in Hq2.
        destruct (get_or_create_walks _ _ _ _ _ Htree Hgoc q x Hq2) as [?|[? ?]];
          [by left|right].
        exists A. split; [|done]. apply elem_of_cons. by left.
      * right. exists B. split; [|done]. apply elem_of_cons. by right.
    + intros b. destruct (Hattrs b) as [[Hp Hb]|(B & HB & ?)].
      * destruct (decide (b = a)) as [->|Hne].
        -- right. exists A. split; [apply elem_of_cons; by left|].
           apply Hmono'. unfold h2. by rewrite get_loop_set_postings.
        -- left. rewrite Hp, Hb. unfold h2.
           rewrite deref_set_postings, decide_False by (by intros [? _]).
           by rewrite Hp1, Hb1.
      * right. exists B. split; [|done]. apply elem_of_cons. by right.
Qed.

Lemma realize_min_accounts_walks root min_accounts :
  ∀ h h',
    is_tree h root → realize_min_accounts h root min_accounts = Ok h' →
    is_tree h' root ∧
    (∀ A, A ∈ min_accounts → is_Some (get h' root A None)) ∧
    (∀ q x, get_loop h' root q None = Some x →
            get_loop h root q None = Some x ∨
            ∃ A, A ∈ min_accounts ∧ q ≠ [] ∧ q `prefix_of` split A).
Proof.
  induction min_accounts as [|A rest IH]; intros h h' Htree Hrun.
  - simpl in Hrun. simplify_eq. split_and!; [done| |auto].
    by intros A ?%elem_of_nil.
  - cbn [realize_min_accounts] in Hrun.
    destruct (get_or_create h root A) as [[h1 a]|] eqn:Hgoc; [|done].
    simpl in Hrun.
    destruct (is_tree_get_or_create _ _ _ _ _ Htree Hgoc) as (Htree1 & _ & Hget1 & _).
    destruct (IH h1 h' Htree1 Hrun) as (Htree' & Hin & Hwalks).
    destruct (realize_min_accounts_frame _ _ _ _ Hrun) as (_ & Hmono & _).
    split_and!; [done| |].
    + intros B [->|HB]%elem_of_cons; [|auto].
      exists a. by apply (get_loop_mono _ _ _ Hmono).
    + intros q x Hq. destruct (Hwalks q x Hq) as [Hq1|(B & HB & ?)].
      * destruct (get_or_create_walks _ _ _ _ _ Htree Hgoc q x Hq1) as [?|[? ?]];
          [by left|right].
        exists A. split; [|done]. apply elem_of_cons. by left.
      * right. exists B. split; [|done]. apply elem_of_cons. by right.
Qed.

(** What [realize] returns, taken apart. *)
Lemma realize_inv entries min_accounts h root :
  realize entries min_accounts = Ok (h, root) →
  root = 0 ∧
  ∃ h1, realize_postings [RealAccount_init EmptyString] 0
                         (group_by_account entries) = Ok h1 ∧
        realize_min_accounts h1 0 (default [] min_accounts) = Ok h.
Proof.
  unfold realize. cbn [RealAccount_new app length].
  destruct (realize_postings _ _ _) as [h1|]; [|done]. rewrite bind_Ok.
  destruct min_accounts as [l|]; cbn [default].
  - destruct (realize_min_accounts _ _ _) as [h2|] eqn:Hmin; [|done].
    rewrite bind_Ok. intros [= <- <-]. split; [done|]. by exists h1.
  - rewrite bind_Ok. intros [= <- <-]. split; [done|]. by exists h1.
Qed.

Lemma realize_is_tree entries min_accounts h root :
  realize entries min_accounts = Ok (h, root) → is_tree h root.
Proof.
  intros (-> & h1 & Hrun1 & Hrun2)%realize_inv.
  pose proof is_tree_new as Htree0. simpl in Htree0.
  pose proof (realize_postings_is_tree _ _ _ _ Htree0 Hrun1) as Htree1.
  by destruct (realize_min_accounts_walks _ _ _ _ Htree1 Hrun2).
Qed.

(** The tree [realize] returns holds the accounts that the directives name
    and those of [min_accounts], with the accounts above them, and no
    other account: the path of every node below the root is the beginning
    of the path of one of these names. *)
Theorem realize_accounts (entries : list Directive)
    (min_accounts : option (list string)) (h : store) (root : addr)
    (Hrun : realize entries min_accounts = Ok (h, root)) :
  is_tree h root ∧
  (∀ account_name,
     account_name ∈ (group_by_account entries).*1 ∨
     account_name ∈ default [] min_accounts →
     contains h root account_name = true) ∧
  (∀ q x, get_loop h root q None = Some x → q ≠ [] →
     ∃ account_name,
       (account_name ∈ (group_by_account entries).*1 ∨
        account_name ∈ default [] min_accounts) ∧
       q `prefix_of` split account_name).
Proof.
  apply realize_inv in Hrun as (-> & h1 & Hrun1 & Hrun2).
  pose proof is_tree_new as Htree0. simpl in Htree0.
  pose proof (realize_postings_is_tree _ _ _ _ Htree0 Hrun1) as Htree1.
  destruct (realize_postings_walks _ _ _ _ Htree0 Hrun1)
    as (Hmono1 & Hin1 & Hwalks1 & Hattrs1).
  destruct (realize_min_accounts_walks _ _ _ _ Htree1 Hrun2) as (Htree2 & Hin2 & Hwalks2).
  destruct (realize_min_accounts_frame _ _ _ _ Hrun2) as (_ & Hmono2 & _).
  split_and!; [done| |].
  - intros A [HA|HA]; unfold contains; apply bool_decide_eq_true; [|auto].
    destruct (Hin1 A HA) as [a Ha]. exists a.
    by apply (get_loop_mono _ _ _ Hmono2).
  - intros q x Hq Hne. destruct (Hwalks2 q x Hq) as [Hq1|(A & HA & _ & ?)].
    + destruct (Hwalks1 q x Hq1) as [Hq0|(A & HA & _ & ?)].
      * destruct q as [|k q]; [done|]. by rewrite get_loop_None_cons in Hq0.
      * exists A. by split; [left|].
    + exists A. by split; [right|].
Qed.

Lemma realize_accounts_witness :
  ∃ h root,
    realize [Open (mkEntry 1 20140101) "Assets:Cash"] (Some ["Income"]) = Ok (h, root) ∧
    contains h root "Assets:Cash" = true ∧ contains h root "Income" = true.
Proof.
  assert (∃ h root, realize [Open (mkEntry 1 20140101) "Assets:Cash"]
                            (Some ["Income"]) = Ok (h, root))
    as (h & root & Hrun) by (eexists _, _; vm_compute; reflexivity).
  exists h, root. split; [done|].
  destruct (realize_accounts _ _ _ _ Hrun) as (_ & Hin & _).
  split; apply Hin.
  - left. apply (bool_decide_unpack _). by vm_compute.
  - right. apply (bool_decide_unpack _). by vm_compute.
Defined.

(** A node of the store [realize] returns has no postings and an empty
    balance, or it is the node of an account that the directives name. *)
Lemma realize_nodes_cases entries min_accounts h root :
  realize entries min_accounts = Ok (h, root) →
  ∀ b, (postings (deref h b) = [] ∧ balance (deref h b) = Inventory_new) ∨
       ∃ A, A ∈ (group_by_account entries).*1 ∧
            get_loop h root (split A) None = Some b.
Proof.
  intros (-> & h1 & Hrun1 & Hrun2)%realize_inv b.
  pose proof is_tree_new as Htree0. simpl in Htree0.
  destruct (realize_postings_walks _ _ _ _ Htree0 Hrun1) as (_ & _ & _ & Hattrs1).
  destruct (realize_min_accounts_frame _ _ _ _ Hrun2) as (_ & Hmono2 & Hp2 & Hb2).
  destruct (Hattrs1 b) as [[Hp Hb]|(A & HA & Hget)].
  - left. rewrite Hp2, Hb2, Hp, Hb. by destruct b as [|[|b]].
  - right. exists A. split; [done|]. by apply (get_loop_mono _ _ _ Hmono2).
Qed.

(** In the tree [realize] returns, the root and every account that no
    directive names, such as an account above the accounts named or an
    account of [min_accounts], have no postings and an empty balance. *)
Theorem realize_unnamed_empty (entries : list Directive)
    (min_accounts : option (list string)) (h : store) (root : addr)
    (Hrun : realize entries min_accounts = Ok (h, root)) :
  (postings (deref h root) = [] ∧ balance (deref h root) = Inventory_new) ∧
  (∀ account_name b,
     get h root account_name None = Some b →
     dict_get account_name (group_by_account entries) = None →
     postings (deref h b) = [] ∧ balance (deref h b) = Inventory_new).
Proof.
  destruct (realize_is_tree _ _ _ _ Hrun) as [_ (pf & Hpf & Hl)].
  pose proof (realize_nodes_cases _ _ _ _ Hrun) as Hall.
  split.
  - destruct (Hall root) as [?|(A & _ & Hget)]; [done|].
    apply (labelled_get_loop _ _ _ Hl) in Hget. rewrite Hpf in Hget.
    by destruct (split_not_nil A).
  - intros name b Hget Hnone. destruct (Hall b) as [?|(A & HA & Hget')]; [done|].
    apply (labelled_get_loop _ _ _ Hl) in Hget, Hget'.
    rewrite Hget' in Hget. apply app_inv_head, split_inj in Hget as ->.
    by apply dict_get_None in Hnone.
Qed.

Lemma realize_unnamed_empty_witness :
  ∃ h root b,
    realize [Open (mkEntry 1 20140101) "Assets:Cash"] (Some ["Income"]) = Ok (h, root) ∧
    get h root "Assets" None = Some b ∧
    postings (deref h b) = [] ∧ balance (deref h b) = Inventory_new.
Proof.
  assert (∃ h root, realize [Open (mkEntry 1 20140101) "Assets:Cash"]
                            (Some ["Income"]) = Ok (h, root))
    as (h & root & Hrun) by (eexists _, _; vm_compute; reflexivity).
  assert (∃ b, get h root "Assets" None = Some b) as [b Hb].
  { vm_compute in Hrun. simplify_eq. by eexists. }
  exists h, root, b. split_and!; [done..| |];
    by apply (proj2 (realize_unnamed_empty _ _ _ _ Hrun) "Assets" b).
Defined.

(** ** [group_by_account] on a list in two parts *)

Lemma keys_insertions ins :
  ∀ m, m.*1 `prefix_of` (foldl (λ m kx, append_to kx.1 kx.2 m) m ins).*1.
Proof.
  induction ins as [|[k x] ins IH]; intros m; [done|].
  cbn [foldl]. etrans; [|apply IH]. rewrite append_to_keys.
  case_decide; [done|]. by apply prefix_app_r.
Qed.

Lemma foldl_insertions_app ins1 ins2 m :
  foldl (λ m kx, append_to kx.1 kx.2 m) m (ins1 ++ ins2)
  = foldl (λ m (kx : string * PostingOrEntry), append_to kx.1 kx.2 m)
          (foldl (λ m kx, append_to kx.1 kx.2 m) m ins1) ins2.
Proof. apply foldl_app. Qed.

(** Grouping a list of directives made of two parts gives, for every
    account, the list of the first part followed by the list of the second
    part; the accounts of the first part come first among the keys, in the
    order they had. *)
Theorem group_by_account_app (entries1 entries2 : list Directive) :
  (∀ account_name,
     dict_get account_name (group_by_account (entries1 ++ entries2))
     = match dict_get account_name (group_by_account entries1),
             dict_get account_name (group_by_account entries2) with
       | None, None => None
       | o1, o2 => Some (default [] o1 ++ default [] o2)
       end) ∧
  (group_by_account entries1).*1
    `prefix_of` (group_by_account (entries1 ++ entries2)).*1.
Proof.
  rewrite !group_by_account_insertions, bind_app. split.
  - intros k. rewrite !dict_get_insertions. cbn [dict_get].
    rewrite filter_app, fmap_app.
    destruct (_.*2) as [|x1 l1], (_.*2) as [|x2 l2]; simpl;
      by rewrite ?app_nil_r.
  - rewrite foldl_insertions_app. apply keys_insertions.
Qed.

(** ** [iterate_with_balance] on directives and on one transaction *)

Lemma flush_directives balance ds :
  flush balance ((λ d, (entry_of d, [])) <$> ds)
  = (directive_row balance <$> ds, balance).
Proof.
  induction ds as [|d ds IH]; [done|].
  rewrite fmap_cons. cbn [flush]. unfold add_postings at 1 2. cbn [foldl].
  by rewrite IH.
Qed.

Lemma loop_directives ds :
  ∀ balance prev pending,
    Sorted date_le (IsEntry <$> ds) →
    (∀ p d, prev = Some p → head ds = Some d → (p ≤ date (entry_of d))%Z) →
    ∃ rows prev' pending',
      loop (mkState balance prev ((λ d, (entry_of d, [])) <$> pending))
           (IsEntry <$> ds)
      = (rows, Ok (mkState balance prev' ((λ d, (entry_of d, [])) <$> pending'))) ∧
      rows ++ (directive_row balance <$> pending')
      = directive_row balance <$> (pending ++ ds).
Proof.
  induction ds as [|d ds IH]; intros balance prev pending Hsorted Hhead.
  - exists [], prev, pending. by rewrite app_nil_r.
  - rewrite fmap_cons in Hsorted. apply Sorted_inv in Hsorted as [Hsorted Hhd].
    assert (∀ p d', Some (date (entry_of d)) = Some p → head ds = Some d' →
                    (p ≤ date (entry_of d'))%Z) as Hnext.
    { intros p d' [= <-] Hd'. destruct ds as [|d'' ds]; simplify_eq/=.
      by apply HdRel_inv in Hhd. }
    rewrite fmap_cons, loop_cons. unfold loop_body.
    cbn [st_prev_date st_balance st_date_entries].
    destruct (decide (Some (date (entry_of d)) ≠ prev)) as [Hne|Heq].
    + assert (match prev with
              | Some prev_date => bool_decide (date (entry_of d) > prev_date)%Z
              | None => true
              end = true) as ->.
      { destruct prev as [p|]; [|done]. apply bool_decide_eq_true.
        specialize (Hhead p d eq_refl eq_refl).
        assert (date (entry_of d) ≠ p) by congruence. lia. }
      rewrite flush_directives.
      cbn [st_prev_date st_balance st_date_entries app].
      destruct (IH balance (Some (date (entry_of d))) [d] Hsorted Hnext)
        as (rows & prev' & pending' & Hrun & Hrows).
      cbn [fmap list_fmap] in Hrun. rewrite Hrun.
      exists ((directive_row balance <$> pending) ++ rows), prev', pending'.
      split; [done|]. rewrite <- app_assoc, Hrows.
      by rewrite (fmap_app _ pending).
    + apply dec_stable in Heq. subst prev.
      cbn [st_prev_date st_balance st_date_entries].
      destruct (IH balance (Some (date (entry_of d))) (pending ++ [d]) Hsorted Hnext)
        as (rows & prev' & pending' & Hrun & Hrows).
      rewrite fmap_app in Hrun. cbn [fmap list_fmap] in Hrun. rewrite Hrun.
      exists rows, prev', pending'. split; [done|].
      by rewrite Hrows, <- app_assoc.
Qed.

(** For a list of directives without postings, in chronological order,
    [iterate_with_balance] yields one tuple for each directive, in the
    order of the list, without postings, with an empty change and an empty
    balance. *)
Theorem iterate_with_balance_directives (ds : list Directive)
    (Hsorted : Sorted date_le (IsEntry <$> ds)) :
  iterate_with_balance (IsEntry <$> ds)
  = (directive_row Inventory_new <$> ds, None).
Proof.
  unfold iterate_with_balance.
  destruct (loop_directives ds Inventory_new None [] Hsorted)
    as (rows & prev' & pending' & Hrun & Hrows); [done|].
  simpl in Hrun. rewrite Hrun.
  cbn [st_balance st_date_entries]. rewrite flush_directives.
  cbn [fst]. by rewrite Hrows.
Qed.

Lemma iterate_with_balance_directives_witness :
  let d1 := Open (mkEntry 1 20140101) "Assets:Cash" in
  let d2 := Note (mkEntry 2 20140101) "Assets:Cash" in
  let d3 := Close (mkEntry 3 20140301) "Assets:Cash" in
  iterate_with_balance [IsEntry d1; IsEntry d2; IsEntry d3]
  = (directive_row Inventory_new <$> [d1; d2; d3], None).
Proof.
  intros d1 d2 d3. apply (iterate_with_balance_directives [d1; d2; d3]).
  repeat constructor; unfold date_le; simpl; lia.
Defined.

Lemma loop_same_entry e ps :
  ∀ balance acc,
    Forall (λ p, p_entry p = e) ps →
    loop (mkState balance (Some (date e)) [(e, acc)]) (IsPosting <$> ps)
    = ([], Ok (mkState balance (Some (date e)) [(e, acc ++ ps)])).
Proof.
  induction ps as [|p ps IH]; intros balance acc Hps.
  - simpl. by rewrite app_nil_r.
  - apply Forall_cons in Hps as [Hp Hps].
    rewrite fmap_cons, loop_cons. unfold loop_body. rewrite Hp.
    cbn [st_prev_date st_balance st_date_entries].
    rewrite decide_False by (by intros Hne; apply Hne).
    cbn [st_prev_date st_balance st_date_entries index_key fst].
    assert (is_ e e = true) as -> by (by apply bool_decide_eq_true).
    cbn [alter list_alter fst snd].
    rewrite IH by done. by rewrite <- app_assoc.
Qed.

(** The postings of one transaction are put together: for a list of
    postings that all refer to the same transaction, [iterate_with_balance]
    yields one tuple, with the transaction, the postings in the order of the
    list, and the sum of their positions for change and for balance. *)
Theorem iterate_with_balance_one_transaction (e : Entry) (ps : list Posting)
    (Hne : ps ≠ []) (Hps : Forall (λ p, p_entry p = e) ps) :
  iterate_with_balance (IsPosting <$> ps)
  = ([mkRow e ps (add_postings Inventory_new ps) (add_postings Inventory_new ps)],
     None).
Proof.
  destruct ps as [|p ps]; [done|].
  apply Forall_cons in Hps as [Hp Hps].
  unfold iterate_with_balance. rewrite fmap_cons, loop_cons.
  unfold loop_body. rewrite Hp.
  cbn [st_prev_date st_balance st_date_entries].
  rewrite decide_True by done.
  cbn [flush st_prev_date st_balance st_date_entries index_key app].
  rewrite loop_same_entry by done.
  cbn [st_balance st_date_entries flush app fst]. done.
Qed.

Lemma iterate_with_balance_one_transaction_witness :
  let e := mkEntry 3 20140222 in
  let p1 := mkPosting e "Assets:Checking" (simple_position (-100) "USD") in
  let p2 := mkPosting e "Assets:Checking" (simple_position (-20) "USD") in
  ∃ r, iterate_with_balance [IsPosting p1; IsPosting p2] = ([r], None) ∧
       row_postings r = [p1; p2].
Proof.
  intros e p1 p2. eexists. split.
  - apply (iterate_with_balance_one_transaction e [p1; p2]); [done|].
    by repeat constructor.
  - done.
Defined.

(** ** The postings of a realized account, replayed *)

Lemma StronglySorted_filter_list {A} (R : relation A) (P : A → Prop)
    `{∀ x, Decision (P x)} (l : list A) :
  StronglySorted R l → StronglySorted R (base.filter P l).
Proof.
  induction 1 as [|x l _ IH Hx]; [constructor|].
  rewrite filter_cons. case_decide; [|done].
  constructor; [done|]. rewrite Forall_forall in Hx. apply Forall_forall.
  intros y [_ Hy]%list_elem_of_filter. auto.
Qed.

Lemma StronglySorted_same_date l c :
  Forall (λ x, entry_date x = c) l → StronglySorted date_le l.
Proof.
  induction 1 as [|x l Hx Hl IH]; constructor; [done|].
  eapply Forall_impl; [done|]. intros y Hy. unfold date_le. simpl in Hy. lia.
Qed.

Lemma insertions_dates d :
  owns_postings d →
  Forall (λ x, entry_date x = date (entry_of d)) (insertions d).*2.
Proof.
  intros Hown. destruct d as [e ps| | | | | | | |]; try by repeat constructor.
  simpl in *. induction Hown as [|p ps Hp _ IH]; constructor; [|done].
  simpl. by rewrite Hp.
Qed.

(** The insertions of directives in chronological order are in
    chronological order. *)
Lemma insertions_sorted entries :
  StronglySorted directive_date_le entries → Forall owns_postings entries →
  StronglySorted date_le (entries ≫= insertions).*2.
Proof.
  induction 1 as [|d entries _ IH Hd]; intros Hown; [constructor|].
  apply Forall_cons in Hown as [Hd_own Hown].
  rewrite bind_cons, fmap_app. apply StronglySorted_app. split_and!.
  - intros x y Hx Hy.
    pose proof (insertions_dates d Hd_own) as Hdates.
    rewrite Forall_forall in Hdates. apply Hdates in Hx.
    apply list_elem_of_fmap in Hy as ([k y'] & -> & Hy).
    apply list_elem_of_bind in Hy as (d' & Hy & Hd').
    rewrite Forall_forall in Hd, Hown. specialize (Hd _ Hd').
    pose proof (insertions_dates d' (Hown _ Hd')) as Hdates'.
    rewrite Forall_forall in Hdates'.
    assert (entry_date y' = date (entry_of d')) as Hy'.
    { apply Hdates'. apply list_elem_of_fmap. by exists (k, y'). }
    unfold date_le, directive_date_le in *. simpl. lia.
  - eapply StronglySorted_same_date. by apply insertions_dates.
  - by apply IH.
Qed.

Lemma group_by_account_sorted entries account_name l :
  Sorted directive_date_le entries → Forall owns_postings entries →
  dict_get account_name (group_by_account entries) = Some l →
  Sorted date_le l.
Proof.
  intros Hsorted Hown Hl.
  rewrite group_by_account_insertions, dict_get_insertions in Hl. simpl in Hl.
  assert (l = (base.filter (λ kx, kx.1 = account_name)
                           (entries ≫= insertions)).*2) as ->.
  { destruct (_.*2); by simplify_eq. }
  apply StronglySorted_Sorted.
  apply (StronglySorted_fmap _ (λ kx ky, date_le kx.2 ky.2)); [done|].
  apply StronglySorted_filter_list.
  apply Sorted_StronglySorted in Hsorted.
  2:{ intros a b c. unfold directive_date_le. lia. }
  pose proof (insertions_sorted _ Hsorted Hown) as Hins.
  clear -Hins. induction (entries ≫= insertions) as [|x ins IH]; [constructor|].
  rewrite fmap_cons in Hins. apply StronglySorted_cons in Hins as [Hx Hins].
  constructor; [auto|]. by rewrite Forall_fmap in Hx.
Qed.

(** The node of an account in the tree [realize] returns has the grouped
    list of the account for postings, or none when there is no such list,
    and the balance of that list. *)
Lemma realize_node entries min_accounts h root account_name a :
  realize entries min_accounts = Ok (h, root) →
  get h root account_name None = Some a →
  postings (deref h a)
  = default [] (dict_get account_name (group_by_account entries)) ∧
  balance (deref h a)
  = compute_postings_balance
      (default [] (dict_get account_name (group_by_account entries))).
Proof.
  intros Hrun Hget.
  destruct (dict_get account_name (group_by_account entries)) as [l|] eqn:Hl.
  - apply realize_inv in Hrun as (-> & h1 & Hrun1 & Hrun2).
    pose proof is_tree_new as Htree0. simpl in Htree0.
    assert (NoDup (group_by_account entries).*1) as Hnd.
    { rewrite group_by_account_insertions. apply NoDup_insertions. constructor. }
    assert (Forall well_formed (group_by_account entries).*1) as Hwf.
    { assert (no_empty_key [RealAccount_init EmptyString]) as Hkeys.
      { intros [|b]; [done|]. by rewrite deref_dangling by (simpl; lia). }
      pose proof (realize_postings_raises 0 (group_by_account entries) _ Hkeys) as H1.
      case_decide; [done|]. by rewrite H1 in Hrun1. }
    destruct (realize_postings_spec 0 _ _ Htree0 Hnd Hwf)
      as (h1' & Hrun1' & _ & Hitems & _).
    rewrite Hrun1 in Hrun1'. simplify_eq.
    destruct (Hitems account_name l) as (a' & Hget' & Hp & Hb).
    { by apply dict_get_Some_elem_of. }
    destruct (realize_min_accounts_frame _ _ _ _ Hrun2) as (_ & Hmono2 & Hp2 & Hb2).
    apply (get_loop_mono _ _ _ Hmono2) in Hget'.
    unfold get in Hget. rewrite Hget' in Hget. simplify_eq.
    simpl. by rewrite Hp2, Hb2.
  - destruct (realize_is_tree _ _ _ _ Hrun) as [_ (pf & Hpf & Hlab)].
    destruct (realize_nodes_cases _ _ _ _ Hrun a) as [[-> ->]|(A & HA & Hget')];
      [done|].
    apply (labelled_get_loop _ _ _ Hlab) in Hget, Hget'.
    rewrite Hget' in Hget. apply app_inv_head, split_inj in Hget as ->.
    by apply dict_get_None in Hl.
Qed.

(** Realization and replay agree: when the directives are in chronological
    order and the postings refer back to their transactions, the postings
    of every account of the tree [realize] returns can be replayed by
    [iterate_with_balance] without exception, and the balance of the last
    tuple is the balance of the account. *)
Theorem realize_iterate_with_balance (entries : list Directive)
    (min_accounts : option (list string)) (h : store) (root : addr)
    (Hsorted : Sorted directive_date_le entries)
    (Hown : Forall owns_postings entries)
    (Hrun : realize entries min_accounts = Ok (h, root)) :
  ∀ account_name a,
    get h root account_name None = Some a →
    ∃ rows,
      iterate_with_balance (postings (deref h a)) = (rows, None) ∧
      (postings (deref h a) ≠ [] → rows ≠ []) ∧
      (∀ r, last rows = Some r → row_balance r = balance (deref h a)).
Proof.
  intros name a Hget.
  destruct (realize_node _ _ _ _ _ _ Hrun Hget) as [Hp Hb].
  assert (Sorted date_le (postings (deref h a))) as Hl.
  { rewrite Hp.
    destruct (dict_get name (group_by_account entries)) as [l|] eqn:Hl;
      [|constructor].
    by eapply group_by_account_sorted. }
  destruct (iterate_with_balance_sorted _ Hl) as (rows & Hrows & Hr & Hperm & Hne).
  exists rows. split_and!; [done..|].
  intros r Hlast. rewrite (running_last _ _ _ Hr Hlast), Hb, <- Hp.
  rewrite compute_postings_balance_postings.
  by apply add_postings_Permutation.
Qed.

Lemma realize_iterate_with_balance_witness :
  let e := mkEntry 2 20140222 in
  let entries :=
    [ Open (mkEntry 1 20140101) "Assets:Cash";
      Transaction e [mkPosting e "Assets:Cash" (simple_position 5 "USD")] ] in
  ∃ h root a rows,
    realize entries None = Ok (h, root) ∧
    get h root "Assets:Cash" None = Some a ∧
    iterate_with_balance (postings (deref h a)) = (rows, None) ∧
    length rows = 2.
Proof.
  intros e entries.
  assert (∃ h root, realize entries None = Ok (h, root))
    as (h & root & Hrun) by (eexists _, _; vm_compute; reflexivity).
  assert (∃ a, get h root "Assets:Cash" None = Some a) as [a Ha].
  { vm_compute in Hrun. simplify_eq. by eexists. }
  assert (Sorted directive_date_le entries) as Hs.
  { repeat constructor. unfold directive_date_le. simpl. lia. }
  assert (Forall owns_postings entries) as Ho by (by repeat constructor).
  destruct (realize_iterate_with_balance entries None h root Hs Ho Hrun _ _ Ha)
    as (rows & Hrows & _).
  exists h, root, a, rows. split_and!; [done..|].
  vm_compute in Hrun. simplify_eq. vm_compute in Ha. simplify_eq.
  vm_compute in Hrows. by simplify_eq.
Defined.

(** ** [filter], once more *)

Lemma elem_of_kept predicate items k c' :
  (k, c') ∈ kept predicate items ↔
  ∃ c, (k, c) ∈ items ∧ filter c predicate = Ok (Some c').
Proof.
  induction items as [|[k1 c1] items IH].
  - split; [by intros ?%elem_of_nil|by intros (? & ?%elem_of_nil & _)].
  - rewrite kept_cons. cbn [fst snd].
    destruct (filter c1 predicate) as [[c1'|]|] eqn:Hc1.
    + rewrite elem_of_cons, IH. split.
      * intros [[= -> ->]|(c & ? & ?)].
        -- exists c1. split; [apply elem_of_cons; by left|done].
        -- exists c. split; [apply elem_of_cons; by right|done].
      * intros (c & [[= -> ->]|?]%elem_of_cons & Hc).
        -- left. congruence.
        -- right. by exists c.
    + rewrite IH. split.
      * intros (c & ? & ?). exists c. split; [apply elem_of_cons; by right|done].
      * intros (c & [[= -> ->]|?]%elem_of_cons & Hc); [congruence|by exists c].
    + rewrite IH. split.
      * intros (c & ? & ?). exists c. split; [apply elem_of_cons; by right|done].
      * intros (c & [[= -> ->]|?]%elem_of_cons & Hc); [congruence|by exists c].
Qed.

Lemma kept_keys_sublist predicate items :
  (kept predicate items).*1 `sublist_of` items.*1.
Proof.
  induction items as [|[k c] items IH]; [done|].
  rewrite kept_cons, fmap_cons. cbn [fst snd].
  destruct (filter c predicate) as [[c'|]|].
  - rewrite fmap_cons. by apply sublist_skip.
  - by apply sublist_cons.
  - by apply sublist_cons.
Qed.

Lemma kept_id predicate items :
  Forall (λ kc : string * RealTree, filter kc.2 predicate = Ok (Some kc.2)) items →
  kept predicate items = items.
Proof.
  induction 1 as [|[k c] items Hc _ IH]; [done|].
  rewrite kept_cons. simpl in *. by rewrite Hc, IH.
Qed.

(** What [filter] returns for a node of a tree built through
    [__setitem__]. *)
Lemma filter_node_keys a ps b items predicate :
  unique_keys (Node a ps b items) → setitem_keys (Node a ps b items) →
  filter (Node a ps b items) predicate
  = if decide (kept predicate items ≠ [] ∨ predicate (Node a ps b items) = true)
    then Ok (Some (Node a ps b (kept predicate items)))
    else Ok None.
Proof.
  intros Huniq Hset.
  destruct (unique_keys_children _ _ _ _ Huniq) as [Hnd Hu].
  pose proof (setitem_keys_children _ _ _ _ Hset) as Hs.
  apply filter_node; [| |done].
  - apply Forall_forall. intros [k c] Hin.
    destruct (filter_total predicate c) as (r & Hr & _ & Hc);
      [by eapply Hu|by eapply Hs|].
    exists r. split; [done|]. intros c' ->.
    by destruct (Hc c' eq_refl) as [[? _] _].
  - apply Forall_forall. intros [k c] Hin.
    by destruct (Hs _ _ Hin) as (? & ? & _).
Qed.

Lemma filter_keys predicate t :
  unique_keys t → setitem_keys t →
  ∀ t', filter t predicate = Ok (Some t') →
        unique_keys t' ∧ setitem_keys t'.
Proof.
  induction t as [a ps b items IH] using RealTree_ind_children.
  intros Huniq Hset t' Hrun.
  destruct (unique_keys_children _ _ _ _ Huniq) as [Hnd Hu].
  pose proof (setitem_keys_children _ _ _ _ Hset) as Hs.
  rewrite filter_node_keys in Hrun by done.
  case_decide; [|done]. simplify_eq.
  rewrite Forall_forall in IH.
  split; constructor.
  - eapply sublist_NoDup; [done|apply kept_keys_sublist].
  - apply Forall_forall. intros [k c'] (c & Hin & Hc)%elem_of_kept.
    by destruct (IH _ Hin (Hu _ _ Hin) (proj2 (proj2 (Hs _ _ Hin))) c' Hc).
  - apply Forall_forall. intros [k c'] (c & Hin & Hc)%elem_of_kept.
    destruct (Hs _ _ Hin) as (Hk & He & Hsc).
    destruct (IH _ Hin (Hu _ _ Hin) Hsc c' Hc) as [_ ?].
    destruct (filter_total predicate c (Hu _ _ Hin) Hsc) as (r & Hr & _ & Hattr).
    rewrite Hc in Hr. simplify_eq.
    destruct (Hattr c' eq_refl) as [[Ha _] _].
    split_and!; [done| |done]. simpl. by rewrite Ha.
Qed.

(** The tree [filter] returns is again a tree as [__setitem__] builds
    them, and filtering it once more with a predicate that reads the
    attributes of nodes only gives the same tree. *)
Theorem filter_idempotent (t t' : RealTree) (predicate : RealTree → bool)
    (Hdict : unique_keys t) (Hkeys : setitem_keys t)
    (Hrun : filter t predicate = Ok (Some t')) :
  unique_keys t' ∧ setitem_keys t' ∧
  (attribute_predicate predicate → filter t' predicate = Ok (Some t')).
Proof.
  destruct (filter_keys predicate t Hdict Hkeys t' Hrun) as [Hdict' Hkeys'].
  split_and!; [done..|]. intros Hattr.
  revert t' Hdict Hkeys Hrun Hdict' Hkeys'.
  induction t as [a ps b items IH] using RealTree_ind_children.
  intros t' Huniq Hset Hrun Huniq' Hset'.
  destruct (unique_keys_children _ _ _ _ Huniq) as [Hnd Hu].
  pose proof (setitem_keys_children _ _ _ _ Hset) as Hs.
  rewrite filter_node_keys in Hrun by done.
  case_decide as Hd; [|done]. simplify_eq.
  rewrite filter_node_keys by done.
  assert (kept predicate (kept predicate items) = kept predicate items) as ->.
  { apply kept_id, Forall_forall. intros [k c'] (c & Hin & Hc)%elem_of_kept.
    rewrite Forall_forall in IH.
    destruct (filter_keys predicate c (Hu _ _ Hin)
                (proj2 (proj2 (Hs _ _ Hin))) c' Hc) as [? ?].
    by apply (IH _ Hin c'); [eapply Hu|eapply Hs|..]. }
  rewrite decide_True; [done|].
  destruct Hd as [?|Hp]; [by left|right].
  by rewrite <- Hp; apply Hattr.
Qed.

Lemma filter_idempotent_witness :
  let leaf a := Node a [] ∅ [] in
  let t := Node EmptyString [] ∅ [("B", leaf "B"); ("A", leaf "A")] in
  let t' := Node EmptyString [] ∅ [("A", leaf "A")] in
  let predicate n := bool_decide (tree_account n = "A") in
  filter t predicate = Ok (Some t') ∧ filter t' predicate = Ok (Some t').
Proof.
  intros leaf t t' predicate.
  assert (filter t predicate = Ok (Some t')) as Hrun by done.
  split; [done|].
  apply (filter_idempotent t t' predicate); [| |done|].
  - constructor; [apply (bool_decide_unpack _); by vm_compute|].
    repeat (constructor; [constructor; constructor|]). constructor.
  - constructor.
    repeat (constructor; [split_and!; [done..|constructor; constructor]|]).
    constructor.
  - intros t1 t2 (Ha & _). unfold predicate. by rewrite Ha.
Defined.

Lemma filter_loop_none predicate items :
  Forall (λ kc : string * RealTree, filter kc.2 predicate = Ok None) items →
  ∀ real_copy, filter_loop predicate items real_copy = Ok real_copy.
Proof.
  induction 1 as [|[k c] items Hc _ IH]; intros acc; [done|].
  cbn [filter_loop]. simpl in Hc. rewrite Hc. apply IH.
Qed.

(** With a predicate that holds for every node, [filter] returns a copy
    equal to the tree it is given; with a predicate that holds for no node
    it returns [None], whatever the tree. *)
Theorem filter_constant :
  (∀ t, unique_keys t → setitem_keys t → filter t (λ _, true) = Ok (Some t)) ∧
  (∀ t, filter t (λ _, false) = Ok None).
Proof.
  split.
  - induction t as [a ps b items IH] using RealTree_ind_children.
    intros Huniq Hset.
    destruct (unique_keys_children _ _ _ _ Huniq) as [Hnd Hu].
    pose proof (setitem_keys_children _ _ _ _ Hset) as Hs.
    rewrite filter_node_keys by done.
    rewrite decide_True by by right.
    rewrite kept_id; [done|]. apply Forall_forall. intros [k c] Hin.
    rewrite Forall_forall in IH. apply (IH _ Hin); [by eapply Hu|by eapply Hs].
  - induction t as [a ps b items IH] using RealTree_ind_children.
    rewrite filter_unfold, filter_loop_none by done. by rewrite bind_Ok.
Qed.

Lemma filter_constant_witness :
  let t := Node EmptyString [] ∅ [("A", Node "A" [] ∅ [])] in
  filter t (λ _, true) = Ok (Some t).
Proof.
  intros t. apply (proj1 filter_constant).
  - constructor; [apply (bool_decide_unpack _); by vm_compute|].
    repeat (constructor; [constructor; constructor|]). constructor.
  - constructor.
    repeat (constructor; [split_and!; [done..|constructor; constructor]|]).
    constructor.
Defined.

(** ** The nodes [iter_children] yields *)

Lemma bind_Permutation_Forall {A B} (f g : A → list B) (l : list A) :
  Forall (λ x, f x ≡ₚ g x) l → l ≫= f ≡ₚ l ≫= g.
Proof.
  induction 1 as [|x l Hx _ IH]; [done|]. by rewrite !bind_cons, Hx, IH.
Qed.

Lemma tree_nodes_unfold a ps b items :
  tree_nodes (Node a ps b items)
  = Node a ps b items :: (items ≫= λ kc, tree_nodes kc.2).
Proof.
  cbn [tree_nodes]. f_equal.
  induction items as [|kc items IH]; [done|].
  by rewrite bind_cons, <- IH.
Qed.

Lemma elem_of_tree_nodes t :
  unique_keys t →
  ∀ n, n ∈ tree_nodes t ↔ ∃ path, subtree t path = Some n.
Proof.
  induction t as [a ps b items IH] using RealTree_ind_children.
  intros Huniq n.
  destruct (unique_keys_children _ _ _ _ Huniq) as [Hnd Hu].
  rewrite Forall_forall in IH.
  rewrite tree_nodes_unfold, elem_of_cons, list_elem_of_bind. split.
  - intros [->|([k c] & Hn & Hin)]; [by exists []|].
    apply (IH _ Hin) in Hn as [q Hq]; [|by eapply Hu].
    exists (k :: q). cbn [subtree tree_children].
    by rewrite (dict_get_NoDup _ _ _ Hnd Hin).
  - intros [[|k q] Hq]; [left; simpl in Hq; by simplify_eq|right].
    cbn [subtree tree_children] in Hq.
    destruct (dict_get k items) as [c|] eqn:Hc; [|done].
    apply dict_get_Some_elem_of in Hc. exists (k, c). split; [|done].
    apply (IH _ Hc); [by eapply Hu|]. by exists q.
Qed.

Lemma iter_children_Permutation t : iter_children t false ≡ₚ tree_nodes t.
Proof.
  induction t as [a ps b items IH] using RealTree_ind_children.
  rewrite iter_children_unfold, tree_nodes_unfold. cbn zeta.
  constructor. rewrite sorted_Permutation.
  by apply bind_Permutation_Forall.
Qed.

(** Without [leaf_only], [iter_children] yields every node of the tree
    once, the node it is given first; the nodes yielded are the nodes at
    the end of the paths of keys through the dictionaries. *)
Theorem iter_children_nodes (t : RealTree) :
  iter_children t false ≡ₚ tree_nodes t ∧
  head (iter_children t false) = Some t ∧
  (unique_keys t →
   ∀ n, n ∈ iter_children t false ↔ ∃ path, subtree t path = Some n).
Proof.
  pose proof (iter_children_Permutation t) as Hperm.
  split_and!; [done| |].
  - destruct t. by rewrite iter_children_unfold.
  - intros Huniq n. rewrite Hperm. by apply elem_of_tree_nodes.
Qed.

Lemma iter_children_nodes_witness :
  let t := Node EmptyString [] ∅ [("B", Node "B" [] ∅ []); ("A", Node "A" [] ∅ [])] in
  Node "A" [] ∅ [] ∈ iter_children t false.
Proof.
  intros t. apply (proj2 (proj2 (iter_children_nodes t))).
  - constructor; [apply (bool_decide_unpack _); by vm_compute|].
    repeat (constructor; [constructor; constructor|]). constructor.
  - by exists ["A"].
Defined.

(** ** The tree value of a realization *)

Lemma allocated_new : allocated [RealAccount_init ""].
Proof.
  intros [|b]; (split; [constructor|by intros ?? ?%elem_of_nil]).
Qed.

Lemma allocated_created h ra path c :
  allocated h → ra < length h →
  dict_get c (children (deref h ra)) = None → c ≠ "" →
  allocated (created h ra path c).
Proof.
  intros Hh Hra Hget Hc b.
  destruct (created_frame h ra path c Hget) as (_ & _ & _ & Hacc).
  rewrite length_created.
  assert (∀ k x, (k, x) ∈ children (deref h b) →
            b < x < S (length h) ∧ k ≠ "" ∧
            endswith (account (deref (created h ra path c) x)) k = true) as Hold.
  { intros k x Hin. destruct (Hh b) as [_ Hb].
    destruct (Hb k x Hin) as (? & ? & ?).
    split_and!; [lia..|done|]. rewrite Hacc by lia. done. }
  destruct (decide (b = ra)) as [->|Hne].
  - rewrite deref_created_parent by done. cbn [with_child children].
    rewrite dict_set_fresh by done. split.
    + rewrite fmap_app. apply NoDup_app. split_and!.
      * apply Hh.
      * intros k Hk [->|[]%elem_of_nil]%elem_of_cons.
        by apply dict_get_None in Hget.
      * apply NoDup_singleton.
    + intros k x [Hin|[[= -> ->]|[]%elem_of_nil]%elem_of_cons]%elem_of_app.
      * by apply Hold.
      * split_and!; [lia..|done|].
        rewrite deref_created_new by done. apply endswith_join_snoc.
  - destruct (decide (b = length h)) as [->|Hnew].
    + rewrite deref_created_new by done.
      split; [constructor|by intros ?? ?%elem_of_nil].
    + destruct (decide (b < length h)).
      * rewrite deref_created_old by done. split; [apply Hh|done].
      * rewrite deref_dangling by (rewrite length_created; lia).
        split; [constructor|by intros ?? ?%elem_of_nil].
Qed.

Lemma allocated_set_postings h a l b :
  allocated h → allocated (set_postings h a l b).
Proof.
  intros Hh x. rewrite children_set_postings, length_set_postings.
  split; [apply Hh|]. intros k c Hin. rewrite account_set_postings.
  by apply Hh.
Qed.

Lemma allocated_get_or_create_loop components :
  ∀ h ra path h' a,
    allocated h → ra < length h →
    get_or_create_loop h ra path components = Ok (h', a) →
    allocated h'.
Proof.
  induction components as [|c rest IH]; intros h ra path h' a Hh Hra Hrun.
  - simpl in Hrun. by simplify_eq.
  - destruct (dict_get c (children (deref h ra))) as [rc|] eqn:Hget.
    + rewrite (get_or_create_loop_found _ _ _ _ _ rc) in Hrun by done.
      apply (IH _ _ _ _ _ Hh) in Hrun; [done|].
      apply dict_get_Some_elem_of in Hget.
      destruct (Hh ra) as [_ Hb]. destruct (Hb _ _ Hget). lia.
    + destruct (decide (c = "")) as [->|Hc].
      { by rewrite get_or_create_loop_empty_key in Hrun. }
      rewrite get_or_create_loop_created in Hrun by done.
      apply IH in Hrun; [done|by apply allocated_created|].
      rewrite length_created. lia.
Qed.

Lemma allocated_realize_postings root items :
  ∀ h h', allocated h → root < length h →
          realize_postings h root items = Ok h' →
          allocated h' ∧ root < length h'.
Proof.
  induction items as [|[account_name l] items IH]; intros h h' Hh Hroot Hrun.
  - simpl in Hrun. by simplify_eq.
  - cbn [realize_postings] in Hrun.
    destruct (get_or_create h root account_name) as [[h1 a]|] eqn:Hgoc; [|done].
    rewrite bind_Ok in Hrun. unfold get_or_create in Hgoc.
    pose proof (allocated_get_or_create_loop _ _ _ _ _ _ Hh Hroot Hgoc).
    apply get_or_create_loop_frame in Hgoc as (Hlen & _).
    apply IH in Hrun; [done|by apply allocated_set_postings|].
    rewrite length_set_postings. lia.
Qed.

Lemma allocated_realize_min_accounts root min_accounts :
  ∀ h h', allocated h → root < length h →
          realize_min_accounts h root min_accounts = Ok h' →
          allocated h' ∧ root < length h'.
Proof.
  induction min_accounts as [|account_name rest IH]; intros h h' Hh Hroot Hrun.
  - simpl in Hrun. by simplify_eq.
  - cbn [realize_min_accounts] in Hrun.
    destruct (get_or_create h root account_name) as [[h1 a]|] eqn:Hgoc; [|done].
    rewrite bind_Ok in Hrun. unfold get_or_create in Hgoc.
    pose proof (allocated_get_or_create_loop _ _ _ _ _ _ Hh Hroot Hgoc).
    apply get_or_create_loop_frame in Hgoc as (Hlen & _).
    apply IH in Hrun; [done|done|lia].
Qed.

Lemma realize_allocated entries min_accounts h root :
  realize entries min_accounts = Ok (h, root) →
  allocated h ∧ root < length h.
Proof.
  intros (-> & h1 & Hrun1 & Hrun2)%realize_inv.
  apply allocated_realize_postings in Hrun1 as [? ?];
    [|apply allocated_new|simpl; lia].
  by apply allocated_realize_min_accounts in Hrun2.
Qed.

Lemma snapshot_attributes n h a t :
  snapshot n h a = Some t →
  tree_account t = account (deref h a) ∧
  tree_postings t = postings (deref h a) ∧
  tree_balance t = balance (deref h a).
Proof.
  destruct n as [|n]; [done|]. simpl.
  destruct (mapM _ _); [|done]. simpl. by intros [= <-].
Qed.

(** The tree value at a node of such a store can be read, with as much
    fuel as there are nodes after it. *)
Lemma snapshot_allocated h :
  allocated h →
  ∀ n a, length h ≤ a + S n →
    ∃ t, snapshot (S n) h a = Some t ∧ unique_keys t ∧ setitem_keys t.
Proof.
  intros Hh. induction n as [|n IH]; intros a Hlen.
  - destruct (Hh a) as [_ Hb].
    destruct (children (deref h a)) as [|[k c] cs] eqn:Hcs.
    + eexists. simpl. rewrite Hcs. simpl.
      split_and!; [done|by repeat constructor..].
    + destruct (Hb k c) as [? _]; [by left|lia].
  - destruct (Hh a) as [Hnd Hb].
    assert (∃ cs, mapM (λ kc : string * addr,
                          t ← snapshot (S n) h kc.2; Some (kc.1, t))
                       (children (deref h a)) = Some cs ∧
                  cs.*1 = (children (deref h a)).*1 ∧
                  Forall (λ kc : string * RealTree,
                            unique_keys kc.2 ∧
                            kc.1 ≠ "" ∧ endswith (tree_account kc.2) kc.1 = true ∧
                            setitem_keys kc.2) cs) as (cs & Hcs & Hkeys & Hall).
    { clear Hnd. setoid_rewrite mapM_Some.
      induction (children (deref h a)) as [|[k c] d IHd].
      - exists []. by split_and!; constructor.
      - destruct IHd as (cs & Hcs & Hkeys & Hall).
        { intros k' c' Hin. apply Hb. by right. }
        destruct (Hb k c) as (Hc & Hk & He); [by left|].
        destruct (IH c) as (t & Ht & Hu & Hs); [lia|].
        exists ((k, t) :: cs). split_and!.
        + constructor; [|done]. cbn [fst snd]. by rewrite Ht.
        + rewrite !fmap_cons. cbn [fst]. by rewrite Hkeys.
        + constructor; [|done]. cbn [fst snd]. split_and!; [done..| |done].
          apply snapshot_attributes in Ht as (-> & _). done. }
    eexists. split_and!.
    + change (snapshot (S (S n)) h a) with
        (cs ← mapM (λ kc : string * addr,
                      t ← snapshot (S n) h kc.2; Some (kc.1, t))
                   (children (deref h a));
         Some (Node (account (deref h a)) (postings (deref h a))
                    (balance (deref h a)) cs)).
      rewrite Hcs. done.
    + constructor; [by rewrite Hkeys|].
      eapply Forall_impl; [exact Hall|]. by intros ? [? _].
    + constructor. eapply Forall_impl; [exact Hall|]. by intros ? (_ & ? & ? & ?).
Qed.

Lemma snapshot_get_loop h q :
  ∀ n a t b,
    snapshot n h a = Some t → get_loop h a q None = Some b →
    ∃ m t', subtree t q = Some t' ∧ snapshot m h b = Some t'.
Proof.
  induction q as [|k q IH]; intros n a t b Ht Hget.
  - simpl in Hget. simplify_eq. by exists n, t.
  - rewrite get_loop_None_cons in Hget.
    destruct (dict_get k (children (deref h a))) as [rc|] eqn:Hk; [|done].
    simpl in Hget. destruct n as [|n]; [done|]. cbn [snapshot] in Ht.
    destruct (mapM _ _) as [cs|] eqn:Hcs; [|done]. simpl in Ht. simplify_eq.
    assert (∃ tc, dict_get k cs = Some tc ∧ snapshot n h rc = Some tc)
      as (tc & Htc & Hsnap).
    { apply mapM_Some in Hcs. revert Hk.
      induction Hcs as [|[k1 c1] [k2 t1] d cs Hf _ IHd]; intros Hk; [done|].
      cbn [fst snd] in Hf.
      destruct (snapshot n h c1) as [t1'|] eqn:Ht1; [|done].
      simpl in Hf. simplify_eq. cbn [dict_get] in *.
      destruct (decide (k2 = k)); [simplify_eq; by exists t1|].
      by apply IHd. }
    destruct (IH _ _ _ _ Hsnap Hget) as (m & t' & Hsub & Hm).
    exists m, t'. split; [|done]. cbn [subtree tree_children].
    by rewrite Htc.
Qed.

(** The nodes [realize] returns form a finite tree under the root, with in
    every [dict] unique keys that are not empty and that the names of the
    children end with: [filter] raises nothing on it, whatever the
    predicate, and the node [get] finds for an account name is the node at
    the end of that path, with its name, postings and balance. *)
Theorem realize_tree (entries : list Directive)
    (min_accounts : option (list string)) (h : store) (root : addr)
    (Hrun : realize entries min_accounts = Ok (h, root)) :
  ∃ t, snapshot (length h) h root = Some t ∧
       unique_keys t ∧ setitem_keys t ∧
       (∀ predicate, ∃ r, filter t predicate = Ok r) ∧
       (∀ account_name a,
          get h root account_name None = Some a →
          ∃ n, subtree t (split account_name) = Some n ∧
               tree_account n = account (deref h a) ∧
               tree_postings n = postings (deref h a) ∧
               tree_balance n = balance (deref h a)).
Proof.
  destruct (realize_allocated _ _ _ _ Hrun) as [Hh Hroot].
  destruct (length h) as [|n] eqn:Hlen; [lia|].
  destruct (snapshot_allocated h Hh n root) as (t & Ht & Hu & Hs); [lia|].
  exists t. split_and!; [done..| |].
  - intros predicate.
    destruct (filter_total predicate t Hu Hs) as (r & Hr & _). by exists r.
  - intros account_name a Hget.
    destruct (snapshot_get_loop _ _ _ _ _ _ Ht Hget) as (m & t' & Hsub & Hm).
    exists t'. split; [done|]. by apply snapshot_attributes in Hm.
Qed.

Lemma realize_tree_witness :
  ∃ h root t,
    realize scenario None = Ok (h, root) ∧
    snapshot (length h) h root = Some t ∧
    ∀ predicate, ∃ r, filter t predicate = Ok r.
Proof.
  destruct (realize scenario None) as [[h root]|] eqn:Hrun;
    [|by vm_compute in Hrun].
  destruct (realize_tree scenario None h root Hrun) as (t & Ht & _ & _ & Hf & _).
  by exists h, root, t.
Defined.

(** ** [get_postings] *)

Section get_postings_facts.
Context {K : Type} (posting_sortkey : PostingOrEntry → K) (lt : K → K → bool).
Hypothesis lt_asym : ∀ x y, lt x y = true → lt y x = false.
Hypothesis lt_incomparable :
  ∀ x y z, lt y x = false → lt z y = false → lt z x = false.

Local Abbreviation insert_by_key := (sort_insert posting_sortkey lt).
Local Abbreviation sort_by_key := (list_sort posting_sortkey lt).
Local Abbreviation le := (sortkey_le posting_sortkey lt).

Lemma sort_insert_Permutation x l : insert_by_key x l ≡ₚ x :: l.
Proof.
  induction l as [|y l IH]; [done|]. cbn [sort_insert].
  destruct (lt _ _); [|done]. by rewrite IH, Permutation_swap.
Qed.

Lemma list_sort_Permutation l : sort_by_key l ≡ₚ l.
Proof.
  induction l as [|x l IH]; [done|].
  unfold list_sort in *. cbn [foldr].
  by rewrite sort_insert_Permutation, IH.
Qed.

Lemma sort_insert_sorted x l :
  StronglySorted le l → StronglySorted le (insert_by_key x l).
Proof.
  induction 1 as [|y l Hl IH Hy]; [by repeat constructor|].
  cbn [sort_insert].
  destruct (lt (posting_sortkey y) (posting_sortkey x)) eqn:Hyx.
  - constructor; [done|].
    rewrite sort_insert_Permutation. constructor; [|done].
    by apply lt_asym.
  - constructor; [by constructor|]. constructor; [done|].
    eapply Forall_impl; [exact Hy|]. intros z Hz.
    by apply (lt_incomparable _ (posting_sortkey y)).
Qed.

Lemma list_sort_sorted l : StronglySorted le (sort_by_key l).
Proof.
  induction l as [|x l IH]; [constructor|]. by apply sort_insert_sorted.
Qed.

Lemma list_sort_id l : StronglySorted le l → sort_by_key l = l.
Proof.
  induction 1 as [|x l Hl IH Hx]; [done|].
  unfold list_sort in *. cbn [foldr]. rewrite IH.
  destruct Hx as [|y l Hy _]; [done|].
  cbn [sort_insert]. by rewrite Hy.
Qed.

(** [get_postings] returns the postings and directives of the node and of
    all the nodes under it, each as often as it is there, sorted by key;
    where the lists of the nodes, one after the other in the order of
    [iter_children], are sorted already, that is the list returned. *)
Theorem get_postings_spec (t : RealTree) :
  get_postings posting_sortkey lt t ≡ₚ tree_nodes t ≫= tree_postings ∧
  StronglySorted le (get_postings posting_sortkey lt t) ∧
  (StronglySorted le (iter_children t false ≫= tree_postings) →
   get_postings posting_sortkey lt t = iter_children t false ≫= tree_postings).
Proof.
  unfold get_postings. cbn zeta. split_and!.
  - by rewrite list_sort_Permutation, iter_children_Permutation.
  - apply list_sort_sorted.
  - apply list_sort_id.
Qed.

End get_postings_facts.

Lemma get_postings_spec_witness :
  get_postings entry_date Z.ltb scenario_tree
  ≡ₚ tree_nodes scenario_tree ≫= tree_postings.
Proof.
  apply (get_postings_spec entry_date Z.ltb).
  - intros x y. rewrite Z.ltb_lt, Z.ltb_ge. lia.
  - intros x y z. rewrite !Z.ltb_ge. lia.
Defined.
